(** * extract_fit_results: amplitude names, coherent sums and phase differences

    A shallow embedding of [scripts/extract_fit_results.cc].  The script reads
    AmpTools fit results, splits every amplitude name [reaction::sum::eJPmL]
    into its quantum numbers, groups the amplitudes into seven kinds of
    coherent sums, selects the phase differences to report and writes one csv
    row per fit file.

    The file has four parts.
    - The script: [StdString], the [std::string] operations it uses ([find],
      [rfind], [substr], [operator[]]) with [size_t] positions; [SMap],
      [std::map<std::string, V>] as an association list kept in ascending
      key order, which is the order the script iterates in; then
      [parse_amplitude], [fill_maps] and [extract_fit_results].
    - The vocabulary of the properties, and sample fits.
    - Facts about strings, maps, loops and about what [fill_maps] stores.
    - The properties of the spec, C1 to C10. *)

From Stdlib Require Import String Ascii List ZArith Lia Bool.
From Stdlib Require Import Sorted Permutation OrdersEx RelationClasses.
Import ListNotations.

Local Open Scope list_scope.
Local Open Scope string_scope.

(** ** Exceptions

    The only exception the script can raise itself is the
    [std::out_of_range] of [std::string::substr], thrown when the start
    position is beyond the end of the string.  Nothing catches it. *)

Inductive exn : Type :=
| std_out_of_range (pos size : Z).

Definition result (A : Type) : Type := (exn + A)%type.

Definition ok {A} (a : A) : result A := inr a.
Definition throw {A} (e : exn) : result A := inl e.

Definition rbind {A B} (m : result A) (f : A -> result B) : result B :=
  match m with
  | inl e => inl e
  | inr a => f a
  end.

Declare Scope result_scope.
Delimit Scope result_scope with result.
Notation "x <- m ;; k" := (rbind m (fun x => k))
  (at level 61, m at next level, right associativity) : result_scope.
Notation "' p <- m ;; k" := (rbind m (fun x => match x with p => k end))
  (at level 61, p pattern, m at next level, right associativity) : result_scope.

Definition returns {A} (m : result A) : bool :=
  match m with inr _ => true | inl _ => false end.

(** ** std::string *)

Module StdString.

(** [size_t] is 64 bits wide; [npos] is its largest value. *)
Definition size_t_modulus : Z := 2 ^ 64.
Definition npos : Z := size_t_modulus - 1.

Definition size_t_add (a b : Z) : Z := ((a + b) mod size_t_modulus)%Z.

Definition size (s : string) : Z := Z.of_nat (String.length s).

Fixpoint take (n : nat) (s : string) : string :=
  match n, s with
  | S n', String c s' => String c (take n' s')
  | _, _ => EmptyString
  end.

Fixpoint drop (n : nat) (s : string) : string :=
  match n, s with
  | S n', String _ s' => drop n' s'
  | _, _ => s
  end.

(** [s.substr(pos, len)]: throws when [pos > size()], otherwise the
    [min(len, size() - pos)] characters from [pos] on. *)
Definition substr (s : string) (pos len : Z) : result string :=
  if (size s <? pos)%Z then throw (std_out_of_range pos (size s))
  else ok (take (Z.to_nat (Z.min len (size s - pos))) (drop (Z.to_nat pos) s)).

(** [s.substr(pos)], the call without a length: everything from [pos] to
    the end of the string. *)
Definition substr_from (s : string) (pos : Z) : result string :=
  if (size s <? pos)%Z then throw (std_out_of_range pos (size s))
  else ok (drop (Z.to_nat pos) s).

Fixpoint starts_with (pat s : string) : bool :=
  match pat, s with
  | EmptyString, _ => true
  | String _ _, EmptyString => false
  | String a pat', String b s' => Ascii.eqb a b && starts_with pat' s'
  end.

(** Position of the first occurrence of [pat] in [s], counted from [i];
    [None] stands for [npos]. *)
Fixpoint find_at (pat s : string) (i : nat) : option nat :=
  if starts_with pat s then Some i
  else match s with
       | EmptyString => None
       | String _ s' => find_at pat s' (S i)
       end.

(** Position of the last occurrence. *)
Fixpoint rfind_at (pat s : string) (i : nat) : option nat :=
  match s with
  | EmptyString => if starts_with pat s then Some i else None
  | String _ s' =>
      match rfind_at pat s' (S i) with
      | Some j => Some j
      | None => if starts_with pat s then Some i else None
      end
  end.

Definition find (s pat : string) : option nat := find_at pat s 0.
Definition rfind (s pat : string) : option nat := rfind_at pat s 0.

(** The [size_t] a search returns. *)
Definition position (o : option nat) : Z :=
  match o with
  | Some i => Z.of_nat i
  | None => npos
  end.

(** [s.find(pat) != std::string::npos]. *)
Definition contains (s pat : string) : bool :=
  match find s pat with
  | Some _ => true
  | None => false
  end.

(** [s[0]]; on the empty string this is the terminating null character. *)
Definition front (s : string) : ascii :=
  match s with
  | EmptyString => Ascii.zero
  | String c _ => c
  end.

End StdString.

Import StdString.

(** ** parse_amplitude (lines 298-308) *)

(** [amplitude.substr(amplitude.rfind("::") + 2)], the text after the last
    separator.  Without a separator [rfind] gives [npos] and the sum wraps
    around to 1. *)
Definition trailing (amplitude : string) : result string :=
  substr_from amplitude (size_t_add (position (rfind amplitude "::")) 2).

Definition parse_amplitude (amplitude : string)
  : result (string * string * string * string) :=
  (eJPmL <- trailing amplitude ;;
   e <- substr eJPmL 0 1 ;;
   JP <- substr eJPmL 1 2 ;;
   m <- substr eJPmL 3 1 ;;
   L <- substr_from eJPmL 4 ;;
   ok (e, JP, m, L))%result.

(** ** std::map with string keys

    The entries are kept in ascending key order (bytes compared as unsigned
    values, as [std::less<std::string>] does), so a range-for over the map is
    a traversal of the list. *)

Module SMap.

Definition t (V : Type) : Type := list (string * V).

Section Operations.
Context {V : Type}.

Definition empty : t V := [].

(** [m.find(k)], [None] for [m.end()]. *)
Fixpoint find (k : string) (m : t V) : option V :=
  match m with
  | [] => None
  | (k', v) :: m' => if String.eqb k k' then Some v else find k m'
  end.

Definition mem (k : string) (m : t V) : bool :=
  match find k m with
  | Some _ => true
  | None => false
  end.

(** [m[k] = v]. *)
Fixpoint insert (k : string) (v : V) (m : t V) : t V :=
  match m with
  | [] => [(k, v)]
  | (k', v') :: m' =>
      match String_as_OT.compare k k' with
      | Lt => (k, v) :: m
      | Eq => (k, v) :: m'
      | Gt => (k', v') :: insert k v m'
      end
  end.

(** [m[k]] read: an absent key is created with the default value. *)
Definition at_key (dflt : V) (k : string) (m : t V) : V :=
  match find k m with
  | Some v => v
  | None => dflt
  end.

(** [f(m[k])] for an [f] that changes the value in place. *)
Definition update (dflt : V) (k : string) (f : V -> V) (m : t V) : t V :=
  insert k (f (at_key dflt k m)) m.

Definition keys (m : t V) : list string := map fst m.

Definition sorted (m : t V) : Prop :=
  StronglySorted String_as_OT.lt (keys m).

End Operations.

End SMap.

(** ** The fit results handle

    [FitResults] is AmpTools' class; the script only calls its accessors.
    [D] stands for [double]: the script passes these numbers on and never
    computes with them.  A complex number is the pair of its real and
    imaginary part. *)

Record FitResults (D : Type) : Type := {
  valid : bool;
  eMatrixStatus : D;
  lastMinuitCommandStatus : D;
  likelihood : D;
  total_intensity : bool -> D * D;             (* intensity(accCorrected) *)
  intensity : list string -> bool -> D * D;    (* intensity(amplitudes, accCorrected) *)
  phaseDiff : string -> string -> D * D;
  reactionList : list string;
  ampList : string -> list string;
  parNameList : list string;
  parValue : string -> D;
  parError : string -> D;
  scaledProductionParameter : string -> D * D
}.

Arguments valid {D} _.
Arguments eMatrixStatus {D} _.
Arguments lastMinuitCommandStatus {D} _.
Arguments likelihood {D} _.
Arguments total_intensity {D} _ _.
Arguments intensity {D} _ _ _.
Arguments phaseDiff {D} _ _ _.
Arguments reactionList {D} _.
Arguments ampList {D} _ _.
Arguments parNameList {D} _.
Arguments parValue {D} _ _.
Arguments parError {D} _ _.
Arguments scaledProductionParameter {D} _ _.

(** ** The maps of the script (lines 64-104) *)

Definition sums_map : Type := SMap.t (SMap.t (list string)).
Definition phase_map : Type := SMap.t (string * string).

Record maps (D : Type) : Type := {
  standard_results : SMap.t D;
  production_coefficients : SMap.t (D * D);
  coherent_sums : sums_map;
  phase_diffs : phase_map
}.

Arguments standard_results {D} _.
Arguments production_coefficients {D} _.
Arguments coherent_sums {D} _.
Arguments phase_diffs {D} _.

Definition coherent_sum_types : list string :=
  ["eJPmL"; "JPmL"; "eJPL"; "JPL"; "eJP"; "JP"; "e"].

(** The loop of lines 98-101: every type starts with an empty map. *)
Definition init_coherent_sums : sums_map :=
  fold_left (fun cs key => SMap.insert key SMap.empty cs)
    coherent_sum_types SMap.empty.

Definition init_maps {D} : maps D := {|
  standard_results := SMap.empty;
  production_coefficients := SMap.empty;
  coherent_sums := init_coherent_sums;
  phase_diffs := SMap.empty
|}.

(** Lines 122-129: the maps are emptied; [coherent_sums] keeps its keys and
    every map under them is emptied. *)
Definition clear_maps {D} (m : maps D) : maps D := {|
  standard_results := SMap.empty;
  production_coefficients := SMap.empty;
  coherent_sums := map (fun kv => (fst kv, SMap.empty)) (coherent_sums m);
  phase_diffs := SMap.empty
|}.

(** ** fill_maps (lines 217-295) *)

(** A loop whose body may throw. *)
Fixpoint for_each {X S} (body : X -> S -> result S) (l : list X) (s : S)
  : result S :=
  match l with
  | [] => ok s
  | x :: l' => (s' <- body x s ;; for_each body l' s')%result
  end.

(** Lines 243-244 and 272-273. *)
Definition is_background (amplitude : string) : bool :=
  contains amplitude "Bkgd" || contains amplitude "iso".

(** [coherent_sums[type][key].push_back(amplitude)]. *)
Definition push_sum (type key amplitude : string) (cs : sums_map) : sums_map :=
  SMap.update SMap.empty type
    (fun sums => SMap.update [] key (fun v => v ++ [amplitude])%list sums) cs.

(** Modelled from the spec: lines 255-291 use a variable [eJPmL] that
    [fill_maps] does not declare.  By its name, by the sibling keys
    [JP + m + L] and [e + JP + L], and by the spec's pair key built from the
    [eJPmL] segment of each amplitude, it is the four parsed fields put
    together again. *)
Definition eJPmL_of (e JP m L : string) : string := e ++ JP ++ m ++ L.

(** Lines 258-264. *)
Definition store_sums (amplitude e JP m L : string) (cs : sums_map) : sums_map :=
  let cs := push_sum "eJPmL" (eJPmL_of e JP m L) amplitude cs in
  let cs := push_sum "JPmL" (JP ++ m ++ L) amplitude cs in
  let cs := push_sum "eJPL" (e ++ JP ++ L) amplitude cs in
  let cs := push_sum "JPL" (JP ++ L) amplitude cs in
  let cs := push_sum "eJP" (e ++ JP) amplitude cs in
  let cs := push_sum "JP" JP amplitude cs in
  push_sum "e" e amplitude cs.

(** Lines 269-291, the body of the inner loop. *)
Definition store_phase_diff (amplitude eJPmL pd_amplitude : string)
    (pd : phase_map) : result phase_map :=
  if String.eqb pd_amplitude amplitude then ok pd
  else if is_background pd_amplitude then ok pd
  else
    (pd_eJPmL <- trailing pd_amplitude ;;
     if SMap.mem (pd_eJPmL ++ "_" ++ eJPmL) pd then ok pd
     else if negb (Ascii.eqb (front eJPmL) (front pd_eJPmL)) then ok pd
     else ok (SMap.insert (eJPmL ++ "_" ++ pd_eJPmL) (amplitude, pd_amplitude) pd)
    )%result.

Section FillMaps.
Context {D : Type}.

(** Lines 226-232. *)
Definition store_standard_results (results : FitResults D)
    (sr : SMap.t D) : SMap.t D :=
  let sr := SMap.insert "eMatrixStatus" (eMatrixStatus results) sr in
  let sr := SMap.insert "lastMinuitCommandStatus"
              (lastMinuitCommandStatus results) sr in
  let sr := SMap.insert "likelihood" (likelihood results) sr in
  let sr := SMap.insert "detected_events"
              (fst (total_intensity results false)) sr in
  let sr := SMap.insert "detected_events_err"
              (snd (total_intensity results false)) sr in
  let sr := SMap.insert "generated_events"
              (fst (total_intensity results true)) sr in
  SMap.insert "generated_events_err" (snd (total_intensity results true)) sr.

(** Lines 239-292, the body of the loop over the amplitudes of a
    reaction. *)
Definition store_amplitude (results : FitResults D) (reaction : string)
    (amplitude : string) (m : maps D) : result (maps D) :=
  if is_background amplitude then
    ok {| standard_results := standard_results m;
          production_coefficients := production_coefficients m;
          coherent_sums := push_sum "eJPmL" "Bkgd" amplitude (coherent_sums m);
          phase_diffs := phase_diffs m |}
  else
    ('(e, JP, mp, L) <- parse_amplitude amplitude ;;
     let eJPmL := eJPmL_of e JP mp L in
     let pc := SMap.insert eJPmL (scaledProductionParameter results amplitude)
                 (production_coefficients m) in
     let cs := store_sums amplitude e JP mp L (coherent_sums m) in
     pd <- for_each (store_phase_diff amplitude eJPmL)
             (ampList results reaction) (phase_diffs m) ;;
     ok {| standard_results := standard_results m;
           production_coefficients := pc;
           coherent_sums := cs;
           phase_diffs := pd |})%result.

Definition fill_maps (results : FitResults D) (m : maps D) : result (maps D) :=
  let m := {| standard_results :=
                store_standard_results results (standard_results m);
              production_coefficients := production_coefficients m;
              coherent_sums := coherent_sums m;
              phase_diffs := phase_diffs m |} in
  for_each
    (fun reaction =>
       for_each (store_amplitude results reaction) (ampList results reaction))
    (reactionList results) m.

End FillMaps.

(** ** Writing the csv (lines 106-213)

    What [extract_fit_results] does to the outside is a sequence of events:
    text sent to the csv stream, text sent to [cout], and calls of the
    handle's accessors.  ([fill_maps] reads the handle as a value; its calls
    are not part of the sequence.) *)

Inductive query : Type :=
| Q_valid
| Q_parNameList
| Q_parValue (name : string)
| Q_parError (name : string)
| Q_intensity (amplitudes : list string) (acc : bool)
| Q_phaseDiff (a b : string).

Inductive event : Type :=
| Csv (text : string)
| Cout (text : string)
| Call (q : query).

Definition newline : string := String (ascii_of_nat 10) "".

Definition csv_of (ev : event) : string :=
  match ev with
  | Csv text => text
  | _ => ""
  end.

(** The content of the csv file after the events. *)
Definition csv_text (evs : list event) : string :=
  fold_right (fun ev text => (csv_of ev ++ text)%string) "" evs.

(** [csv_file.tellp()] on the stream the events were sent to. *)
Definition tellp (evs : list event) : Z := size (csv_text evs).

Definition calls (evs : list event) : list query :=
  flat_map (fun ev => match ev with Call q => [q] | _ => [] end) evs.

Local Open Scope list_scope.

Section Writing.
Context {D : Type}.
(** [csv_file << x] for a [double]. *)
Variable show : D -> string.

Definition for_range {X} (l : list X) (body : X -> list event) : list event :=
  flat_map body l.

(** Lines 136-173.  Line 141 writes [key] where the loop binds [kev]; the
    name written is the map key. *)
Definition write_header (results : FitResults D) (m : maps D) : list event :=
  for_range (standard_results m)
    (fun kv => [Csv (fst kv); Csv ","])
  ++ [Call Q_parNameList]
  ++ for_range (parNameList results)
       (fun par_name =>
          if contains par_name "::" then []
          else [Csv par_name; Csv ","; Csv par_name; Csv "_err,"])
  ++ for_range (production_coefficients m)
       (fun kv => [Csv (fst kv); Csv "_re"; Csv ",";
                   Csv (fst kv); Csv "_im"; Csv ","])
  ++ for_range (coherent_sums m)
       (fun sum_entry =>
          for_range (SMap.at_key SMap.empty (fst sum_entry) (coherent_sums m))
            (fun kv => [Csv (fst kv); Csv ","; Csv (fst kv); Csv "_err,"]))
  ++ for_range (phase_diffs m)
       (fun kv => [Csv (fst kv); Csv ","; Csv (fst kv); Csv "_err,"])
  ++ [Csv newline].

(** Lines 175-212. *)
Definition write_values (results : FitResults D) (m : maps D)
    (is_acceptance_corrected : bool) : list event :=
  for_range (standard_results m)
    (fun kv => [Csv (show (snd kv)); Csv ","])
  ++ [Call Q_parNameList]
  ++ for_range (parNameList results)
       (fun par_name =>
          if contains par_name "::" then []
          else [Call (Q_parValue par_name);
                Csv (show (parValue results par_name)); Csv ",";
                Call (Q_parError par_name);
                Csv (show (parError results par_name)); Csv ","])
  ++ for_range (production_coefficients m)
       (fun kv => [Csv (show (fst (snd kv))); Csv ",";
                   Csv (show (snd (snd kv))); Csv ","])
  ++ for_range (coherent_sums m)
       (fun sum_entry =>
          for_range (SMap.at_key SMap.empty (fst sum_entry) (coherent_sums m))
            (fun kv =>
               let amp_vector := snd kv in
               [Call (Q_intensity amp_vector is_acceptance_corrected);
                Csv (show (fst (intensity results amp_vector
                                  is_acceptance_corrected)));
                Csv ",";
                Call (Q_intensity amp_vector is_acceptance_corrected);
                Csv (show (snd (intensity results amp_vector
                                  is_acceptance_corrected)));
                Csv ","]))
  ++ for_range (phase_diffs m)
       (fun kv =>
          let pd_pair := snd kv in
          [Call (Q_phaseDiff (fst pd_pair) (snd pd_pair));
           Csv (show (fst (phaseDiff results (fst pd_pair) (snd pd_pair))));
           Csv ",";
           Call (Q_phaseDiff (fst pd_pair) (snd pd_pair));
           Csv (show (snd (phaseDiff results (fst pd_pair) (snd pd_pair))));
           Csv ","]).

(** [FitResults results(file)]: the file system, as the handle each path
    opens to. *)
Variable open_results : string -> FitResults D.
Variable is_acceptance_corrected : bool.

(** Lines 112-213.  The events so far and the maps are carried from file to
    file; an exception out of [fill_maps] ends the run. *)
Fixpoint extract_files (file_vector : list string) (evs : list event)
    (m : maps D) : list event * option exn :=
  match file_vector with
  | [] => (evs, None)
  | file :: rest =>
      let evs := evs ++ [Cout ("Analyzing File: " ++ file ++ newline)%string] in
      let results := open_results file in
      let evs := evs ++ [Call Q_valid] in
      if negb (valid results) then
        extract_files rest
          (evs ++ [Cout ("Invalid fit results in file: " ++ file ++ newline)%string]) m
      else
        match fill_maps results (clear_maps m) with
        | inl e => (evs, Some e)
        | inr m =>
            let evs :=
              if (tellp evs =? 0)%Z then evs ++ write_header results m
              else evs in
            let evs := evs ++ write_values results m is_acceptance_corrected in
            extract_files rest evs m
        end
  end.

Definition is_space (c : ascii) : bool :=
  let n := nat_of_ascii c in
  ((n =? 32)%nat || ((9 <=? n)%nat && (n <=? 13)%nat))%bool.

(** Lines 56-62: [iss >> file] until the stream is exhausted. *)
Fixpoint split_files (files : string) (word : string) : list string :=
  match files with
  | EmptyString => if String.eqb word "" then [] else [word]
  | String c files' =>
      if is_space c then
        if String.eqb word "" then split_files files' ""
        else word :: split_files files' ""
      else split_files files' (word ++ String c "")%string
  end.

(** Lines 52-214.  The csv stream is taken to open; it is opened anew, so it
    starts empty. *)
Definition extract_fit_results (files : string) : list event * option exn :=
  extract_files (split_files files "") [] init_maps.

End Writing.

(** * The vocabulary of the properties

    Definitions that say what the maps hold and what the csv is; they are
    used to state the properties only. *)

Local Open Scope string_scope.

(** [seg] is what follows the last ["::"] of [amplitude]: a separator stands
    right before it and none starts later. *)
Definition trailing_segment (amplitude seg : string) : Prop :=
  exists front_part,
    amplitude = front_part ++ "::" ++ seg /\ contains (":" ++ seg) "::" = false.

(** ** Coherent sums: what [fill_maps] stores *)

(** The amplitudes under [coherent_sums[type][key]]; nothing when the key is
    not there. *)
Definition group (cs : sums_map) (type key : string) : list string :=
  SMap.at_key [] key (SMap.at_key SMap.empty type cs).

(** The keys lines 258-264 push a parsed amplitude under, by type. *)
Definition sum_key (type e JP m L : string) : option string :=
  if String.eqb type "eJPmL" then Some (eJPmL_of e JP m L)
  else if String.eqb type "JPmL" then Some (JP ++ m ++ L)
  else if String.eqb type "eJPL" then Some (e ++ JP ++ L)
  else if String.eqb type "JPL" then Some (JP ++ L)
  else if String.eqb type "eJP" then Some (e ++ JP)
  else if String.eqb type "JP" then Some JP
  else if String.eqb type "e" then Some e
  else None.

Definition option_is (o : option string) (k : string) : bool :=
  match o with
  | Some k' => String.eqb k' k
  | None => false
  end.

(** Whether [store_amplitude] appends [amplitude] to the group [key] of
    [type]. *)
Definition placed (amplitude type key : string) : bool :=
  if is_background amplitude then
    String.eqb type "eJPmL" && String.eqb key "Bkgd"
  else
    match parse_amplitude amplitude with
    | inr (e, JP, m, L) => option_is (sum_key type e JP m L) key
    | inl _ => false
    end.

(** All amplitudes of a fit, reaction after reaction. *)
Definition all_amplitudes {D} (results : FitResults D) : list string :=
  flat_map (ampList results) (reactionList results).

(** The types in the order the map keeps them. *)
Definition sorted_types : list string :=
  ["JP"; "JPL"; "JPmL"; "e"; "eJP"; "eJPL"; "eJPmL"].

(** The seven types are there and every map is in key order. *)
Definition sums_ok (cs : sums_map) : Prop :=
  SMap.keys cs = sorted_types
  /\ forall type, SMap.sorted (SMap.at_key SMap.empty type cs).

(** The groups an amplitude is a member of, in the order a traversal of the
    maps meets them. *)
Definition groups_holding (amplitude : string) (cs : sums_map)
  : list (string * string) :=
  flat_map
    (fun sum_entry =>
       flat_map
         (fun kv =>
            if existsb (String.eqb amplitude) (snd kv)
            then [(fst sum_entry, fst kv)] else [])
         (snd sum_entry))
    cs.

(** In the words of the spec: a label of the finest grouping maps to the
    key of a coarser one by its fixed-width fields, 1+2+1+rest.  (The script
    has no such function; it computes every key from the parsed
    amplitude.) *)
Definition label_fields (label : string) : string * string * string * string :=
  (take 1 label, take 2 (drop 1 label), take 1 (drop 3 label), drop 4 label).

Definition coarser_key (type label : string) : option string :=
  let '(e, JP, m, L) := label_fields label in sum_key type e JP m L.

(** A name [parse_amplitude] returns on. *)
Definition well_formed (amplitude : string) : bool :=
  match trailing amplitude with
  | inr seg => (4 <=? String.length seg)%nat
  | inl _ => false
  end.

(** ** Phase differences: what [fill_maps] stores *)

(** The key lines 280 and 291 build from two segments. *)
Definition pair_key (first second : string) : string :=
  first ++ "_" ++ second.

Fixpoint no_underscore (s : string) : bool :=
  match s with
  | EmptyString => true
  | String c s' => negb (Ascii.eqb c "_") && no_underscore s'
  end.

(** The pairs [(amplitude, pd_amplitude)] on which the body of the inner
    loop runs, in the order it runs on them. *)
Definition visits {D} (results : FitResults D) : list (string * string) :=
  flat_map
    (fun reaction =>
       flat_map
         (fun amplitude =>
            if is_background amplitude then []
            else map (pair amplitude) (ampList results reaction))
         (ampList results reaction))
    (reactionList results).

(** One run of the body of the inner loop, from the amplitude names. *)
Definition visit_step (v : string * string) (pd : phase_map) : result phase_map :=
  ('(e, JP, m, L) <- parse_amplitude (fst v) ;;
   store_phase_diff (fst v) (eJPmL_of e JP m L) (snd v) pd)%result.

(** What an entry of the map is: two different amplitudes without the
    marker, of equal reflectivity, under the key of their segments. *)
Definition entry_ok (key : string) (pd_pair : string * string) : Prop :=
  is_background (fst pd_pair) = false
  /\ is_background (snd pd_pair) = false
  /\ fst pd_pair <> snd pd_pair
  /\ exists s1 s2,
      trailing (fst pd_pair) = ok s1 /\ trailing (snd pd_pair) = ok s2
      /\ key = pair_key s1 s2 /\ front s1 = front s2.

Definition phase_ok (pd : phase_map) : Prop :=
  forall key pd_pair, SMap.find key pd = Some pd_pair -> entry_ok key pd_pair.

(** ** The columns of the coherent sums *)

(** The groups in the order lines 160-166 and 199-206 meet them: type, key
    and amplitudes. *)
Definition sum_entries (cs : sums_map) : list (string * string * list string) :=
  flat_map
    (fun sum_entry =>
       map (fun kv => (fst sum_entry, fst kv, snd kv))
         (SMap.at_key SMap.empty (fst sum_entry) cs))
    cs.

(** The names of the coherent sum columns, in the order of the csv. *)
Definition sum_columns (cs : sums_map) : list string :=
  map (fun entry => snd (fst entry)) (sum_entries cs).


Definition is_phaseDiff_call (q : query) : bool :=
  match q with
  | Q_phaseDiff _ _ => true
  | _ => false
  end.

(** In the words of the spec: the first-seen order of the group keys of a
    type, the order in which the amplitudes bring them up.  (The script
    keeps no such order; its maps are ordered by key.) *)
Definition pushed_keys {D} (results : FitResults D) (type : string)
  : list string :=
  flat_map
    (fun a =>
       if is_background a then
         if String.eqb type "eJPmL" then ["Bkgd"] else []
       else
         match parse_amplitude a with
         | inr (e, JP, m, L) =>
             match sum_key type e JP m L with
             | Some key => [key]
             | None => []
             end
         | inl _ => []
         end)
    (all_amplitudes results).

Definition first_seen (keys : list string) : list string :=
  fold_left
    (fun seen key =>
       if existsb (String.eqb key) seen then seen else (seen ++ [key])%list)
    keys [].

(** The maps [fill_maps] leaves for a fit, from emptied maps. *)
Definition filled {D} (results : FitResults D) : maps D :=
  match fill_maps results init_maps with
  | inr m => m
  | inl _ => init_maps
  end.

(** ** The csv of a batch *)

Section BatchTexts.
Context {D : Type}.
Variable show : D -> string.
Variable open_results : string -> FitResults D.
Variable is_acceptance_corrected : bool.

Definition header_text (file : string) : string :=
  csv_text (write_header (open_results file) (filled (open_results file))).

Definition row_text (file : string) : string :=
  csv_text (write_values show (open_results file)
              (filled (open_results file)) is_acceptance_corrected).

Fixpoint rows_text (files : list string) : string :=
  match files with
  | [] => ""
  | file :: rest => row_text file ++ rows_text rest
  end.

(** The csv for files that were all processed to the end: the header of
    the first, then a row for each. *)
Definition expected_csv (files : list string) : string :=
  match files with
  | [] => ""
  | file :: _ => header_text file ++ rows_text files
  end.

(** The files that get a row: the valid ones, up to the first on which
    [fill_maps] throws. *)
Fixpoint completed (files : list string) : list string :=
  match files with
  | [] => []
  | file :: rest =>
      if negb (valid (open_results file)) then completed rest
      else if returns (fill_maps (open_results file) init_maps)
           then file :: completed rest
           else []
  end.

(** The exception that ends the run, if one does. *)
Fixpoint outcome (files : list string) : option exn :=
  match files with
  | [] => None
  | file :: rest =>
      if negb (valid (open_results file)) then outcome rest
      else match fill_maps (open_results file) init_maps with
           | inl e => Some e
           | inr _ => outcome rest
           end
  end.

End BatchTexts.

Local Open Scope list_scope.

(** ** Sample handles *)

Definition sample_results (reactions : list (string * list string))
  : FitResults Z := {|
  valid := true;
  eMatrixStatus := 3%Z;
  lastMinuitCommandStatus := 0%Z;
  likelihood := (-1000)%Z;
  total_intensity := fun acc => if acc then (200, 20)%Z else (100, 10)%Z;
  intensity := fun amps acc => (Z.of_nat (List.length amps), 1%Z);
  phaseDiff := fun a b => (Z.of_nat (String.length a), Z.of_nat (String.length b));
  reactionList := map fst reactions;
  ampList := fun r =>
    match List.find (fun p => String.eqb r (fst p)) reactions with
    | Some p => snd p
    | None => []
    end;
  parNameList := ["dalitz_alpha"; "R1::S::p1p0S_re"];
  parValue := fun n => Z.of_nat (String.length n);
  parError := fun _ => 1%Z;
  scaledProductionParameter := fun a => (Z.of_nat (String.length a), 0%Z)
|}.

Definition scenario : FitResults Z :=
  sample_results [("R1", ["R1::S::p1p0S"; "R1::S::m1p0S"; "R1::S::p1ppD"])].

Definition invalid_results : FitResults Z := {|
  valid := false;
  eMatrixStatus := 0%Z;
  lastMinuitCommandStatus := 0%Z;
  likelihood := 0%Z;
  total_intensity := fun _ => (0, 0)%Z;
  intensity := fun _ _ => (0, 0)%Z;
  phaseDiff := fun _ _ => (0, 0)%Z;
  reactionList := [];
  ampList := fun _ => [];
  parNameList := [];
  parValue := fun _ => 0%Z;
  parError := fun _ => 0%Z;
  scaledProductionParameter := fun _ => (0, 0)%Z
|}.

Definition show_Z (z : Z) : string :=
  match z with
  | Z0 => "0"
  | Zpos p => String "+" (String (ascii_of_pos p) "")
  | Zneg p => String "-" (String (ascii_of_pos p) "")
  end.

Definition sample_files (file : string) : FitResults Z :=
  if String.eqb file "good.fit" then scenario else invalid_results.

Local Open Scope string_scope.

Definition short_fit : FitResults Z := sample_results [("R", ["R::S::p1"])].

Definition reserved_fit : FitResults Z :=
  sample_results [("R", ["R::S::Bkgd"; "R::S::B1p0S"])].

Definition same_label_fit : FitResults Z :=
  sample_results
    [("R", ["R::ImagPosSign::p1p0S"; "R::RealNegSign::p1p0S"])].

Definition underscore_fit : FitResults Z :=
  sample_results
    [("R", ["R::S::pzzz"; "R::S::pxxx_pyyy"; "R::S::pxxx"; "R::S::pyyy_pzzz"])].

Definition background_fit : FitResults Z :=
  sample_results [("R", ["R::S::p1p0S"; "R::S::iso"; "R::isoSum::p1ppD"])].

Definition reordered_scenario : FitResults Z :=
  sample_results [("R1", ["R1::S::p1ppD"; "R1::S::m1p0S"; "R1::S::p1p0S"])].

(** ** The claims of the spec that the script does not meet, as worded *)

(** The first half of C1 as the spec words it: on every fit the builder
    leaves each amplitude without the marker in one group per type. *)
Definition places_in_seven_groups {D} (results : FitResults D) : Prop :=
  exists m',
    fill_maps results init_maps = ok m'
    /\ forall a,
      In a (all_amplitudes results) -> is_background a = false ->
      map fst (groups_holding a (coherent_sums m')) = sorted_types.

(** The second half as the spec words it: a coarser group is the union of
    the groups of the finest type whose labels map to its key. *)
Definition union_of_finest_groups {D} (results : FitResults D) : Prop :=
  forall m',
    fill_maps results init_maps = ok m' ->
    forall type key a,
      In type coherent_sum_types -> type <> "eJPmL" ->
      In a (group (coherent_sums m') type key)
      <-> exists label,
          coarser_key type label = Some key
          /\ In a (group (coherent_sums m') "eJPmL" label).

(** C2 as the spec words it: for two different amplitudes of one reaction,
    without the marker and of equal reflectivity, one of the two keys is in
    the map and the other is not. *)
Definition exactly_one_key {D} (results : FitResults D) : Prop :=
  forall (m' : maps D) reaction A B sa sb,
    fill_maps results init_maps = ok m' ->
    In reaction (reactionList results) ->
    In A (ampList results reaction) -> In B (ampList results reaction) ->
    A <> B -> is_background A = false -> is_background B = false ->
    trailing A = ok sa -> trailing B = ok sb -> front sa = front sb ->
    SMap.mem (pair_key sa sb) (phase_diffs m')
    = negb (SMap.mem (pair_key sb sa) (phase_diffs m')).

(** C5 as the spec words it: under every type the columns come in the order
    in which the amplitudes brought up their keys. *)
Definition first_seen_order {D} (results : FitResults D) : Prop :=
  forall type,
    In type coherent_sum_types ->
    SMap.keys (SMap.at_key SMap.empty type (coherent_sums (filled results)))
    = first_seen (pushed_keys results type).


(** ** More vocabulary: the other maps, the file list and the csv cells *)

(** What lines 226-232 leave in [standard_results], in the order of the
    map. *)
Definition standard_fields {D} (results : FitResults D) : SMap.t D :=
  [("detected_events", fst (total_intensity results false));
   ("detected_events_err", snd (total_intensity results false));
   ("eMatrixStatus", eMatrixStatus results);
   ("generated_events", fst (total_intensity results true));
   ("generated_events_err", snd (total_intensity results true));
   ("lastMinuitCommandStatus", lastMinuitCommandStatus results);
   ("likelihood", likelihood results)].

(** What line 255 does to [production_coefficients] for one amplitude. *)
Definition store_coefficient {D} (results : FitResults D)
    (pc : SMap.t (D * D)) (amplitude : string) : SMap.t (D * D) :=
  if is_background amplitude then pc
  else
    match parse_amplitude amplitude with
    | inr (e, JP, m, L) =>
        SMap.insert (eJPmL_of e JP m L)
          (scaledProductionParameter results amplitude) pc
    | inl _ => pc
    end.

(** A string without white space. *)
Fixpoint no_space (s : string) : bool :=
  match s with
  | EmptyString => true
  | String c s' => negb (is_space c) && no_space s'
  end.

(** A file name that survives [iss >> file]: not empty, no white space. *)
Definition plain_word (w : string) : bool :=
  negb (String.eqb w "") && no_space w.

(** File names with one blank between them. *)
Fixpoint join_files (words : list string) : string :=
  match words with
  | [] => ""
  | [w] => w
  | w :: rest => w ++ " " ++ join_files rest
  end.

Definition is_parValue_call (q : query) : bool :=
  match q with
  | Q_parValue _ => true
  | _ => false
  end.

Definition is_parError_call (q : query) : bool :=
  match q with
  | Q_parError _ => true
  | _ => false
  end.

(** The parameters lines 147 and 185 do not skip. *)
Definition unscoped (names : list string) : list string :=
  filter (fun par_name => negb (contains par_name "::")) names.

(** Cells of a csv line, each followed by its comma. *)
Fixpoint cells_text (cells : list string) : string :=
  match cells with
  | [] => ""
  | cell :: rest => cell ++ "," ++ cells_text rest
  end.

(** The columns of a row: every name the header writes, with the number the
    row writes under it. *)
Definition columns {D} (results : FitResults D) (m : maps D) (acc : bool)
  : list (string * D) :=
  (map (fun kv => (fst kv, snd kv)) (standard_results m)
   ++ flat_map
        (fun par_name =>
           [(par_name, parValue results par_name);
            ((par_name ++ "_err")%string, parError results par_name)])
        (unscoped (parNameList results))
   ++ flat_map
        (fun kv =>
           [((fst kv ++ "_re")%string, fst (snd kv));
            ((fst kv ++ "_im")%string, snd (snd kv))])
        (production_coefficients m)
   ++ flat_map
        (fun entry =>
           [(snd (fst entry), fst (intensity results (snd entry) acc));
            ((snd (fst entry) ++ "_err")%string,
             snd (intensity results (snd entry) acc))])
        (sum_entries (coherent_sums m))
   ++ flat_map
        (fun kv =>
           [(fst kv, fst (phaseDiff results (fst (snd kv)) (snd (snd kv))));
            ((fst kv ++ "_err")%string,
             snd (phaseDiff results (fst (snd kv)) (snd (snd kv))))])
        (phase_diffs m))%list.

(** Two sums with the same wave, and a background term between them. *)
Definition two_sums_fit : FitResults Z :=
  sample_results
    [("R", ["R::ImagPosSign::p1p0S"; "R::Bkgd"; "R::RealNegSign_::p1p0S"])].

(** The same wave in two reactions. *)
Definition two_reactions_fit : FitResults Z :=
  sample_results
    [("R1", ["R1::S::p1p0S"; "R1::S::p1ppD"]);
     ("R2", ["R2::S::p1ppD"; "R2::S::p1p0S"])].

(** A file system with a fit whose amplitude is too short to parse. *)
Definition short_files (file : string) : FitResults Z :=
  if String.eqb file "short.fit" then short_fit else sample_files file.

(** * Facts *)

(** ** Results *)

Lemma rbind_ok {A B} (a : A) (f : A -> result B) : rbind (ok a) f = f a.
Proof. reflexivity. Qed.

Lemma rbind_throw {A B} (e : exn) (f : A -> result B) :
  rbind (throw e) f = throw e.
Proof. reflexivity. Qed.

Lemma ok_inj {A} (a b : A) : ok a = ok b -> a = b.
Proof. now intros [= ->]. Qed.

(** Two results of one call are the same result. *)
Ltac same_result := unfold ok, throw in *; congruence.

Lemma rbind_inv {A B} (m : result A) (f : A -> result B) b :
  rbind m f = ok b -> exists a, m = ok a /\ f a = ok b.
Proof. destruct m as [e|a]; simpl; [discriminate | eauto]. Qed.

(** ** The script on small inputs *)

Example trailing_of_three_parts : trailing "R1::S::p1p0S" = ok "p1p0S".
Proof. reflexivity. Qed.

Example trailing_without_separator : trailing "p1p0S" = ok "1p0S".
Proof. reflexivity. Qed.

Example trailing_of_nothing : trailing "" = throw (std_out_of_range 1 0).
Proof. reflexivity. Qed.

Example coherent_sum_types_in_map_order :
  SMap.keys init_coherent_sums = ["JP"; "JPL"; "JPmL"; "e"; "eJP"; "eJPL"; "eJPmL"].
Proof. reflexivity. Qed.

Example clearing_keeps_the_types :
  clear_maps (filled scenario) = init_maps.
Proof. reflexivity. Qed.

Example files_are_split_at_blanks :
  split_files "a.fit  b.fit" "" = ["a.fit"; "b.fit"].
Proof. reflexivity. Qed.

(** ** Facts on strings *)

Section StringFacts.

Lemma take_drop n s : take n s ++ drop n s = s.
Proof.
  revert s; induction n as [|n IH]; intros [|c s]; simpl; auto.
  now rewrite IH.
Qed.

Lemma length_take n s : String.length (take n s) = Nat.min n (String.length s).
Proof.
  revert s; induction n as [|n IH]; intros [|c s]; simpl; auto.
Qed.

Lemma length_drop n s : String.length (drop n s) = String.length s - n.
Proof.
  revert s; induction n as [|n IH]; intros [|c s]; simpl; auto.
Qed.

Lemma take_all n s : String.length s <= n -> take n s = s.
Proof.
  revert s; induction n as [|n IH]; intros [|c s]; simpl; intros H; auto; try lia.
  rewrite IH; auto; lia.
Qed.

Lemma drop_drop n k s : drop n (drop k s) = drop (k + n) s.
Proof.
  revert s; induction k as [|k IH]; intros s; simpl; auto.
  destruct s as [|c s]; simpl; auto.
  now destruct n.
Qed.

Lemma drop_app_length p s : drop (String.length p) (p ++ s) = s.
Proof. induction p as [|c p IH]; simpl; auto. Qed.

Lemma append_nil_r s : s ++ "" = s.
Proof. induction s as [|c s IH]; simpl; congruence. Qed.

Lemma append_assoc (a b c : string) : (a ++ b) ++ c = a ++ b ++ c.
Proof. induction a as [|x a IH]; simpl; congruence. Qed.

Lemma length_append (a b : string) :
  String.length (a ++ b) = String.length a + String.length b.
Proof. induction a as [|x a IH]; simpl; congruence. Qed.

Lemma substr_ok s pos len :
  (0 <= pos <= size s)%Z ->
  substr s pos len
  = ok (take (Z.to_nat (Z.min len (size s - pos))) (drop (Z.to_nat pos) s)).
Proof.
  intros H. unfold substr.
  destruct (Z.ltb_spec (size s) pos); [lia | reflexivity].
Qed.

Lemma substr_throw s pos len :
  (size s < pos)%Z -> substr s pos len = throw (std_out_of_range pos (size s)).
Proof.
  intros H. unfold substr.
  destruct (Z.ltb_spec (size s) pos); [reflexivity | lia].
Qed.

(** The rest of the string from an index within it. *)
Lemma substr_from_ok s i :
  i <= String.length s -> substr_from s (Z.of_nat i) = ok (drop i s).
Proof.
  intros Hi. unfold substr_from, size.
  destruct (Z.ltb_spec (Z.of_nat (String.length s)) (Z.of_nat i)); [lia|].
  now rewrite Nat2Z.id.
Qed.

Lemma substr_from_throw s pos :
  (size s < pos)%Z -> substr_from s pos = throw (std_out_of_range pos (size s)).
Proof.
  intros H. unfold substr_from.
  destruct (Z.ltb_spec (size s) pos); [reflexivity | lia].
Qed.

(** A fixed number of characters that are all there. *)
Lemma substr_fixed s i n :
  i + n <= String.length s ->
  substr s (Z.of_nat i) (Z.of_nat n) = ok (take n (drop i s)).
Proof.
  intros H. rewrite substr_ok by (unfold size; lia).
  rewrite Nat2Z.id. do 2 f_equal. unfold size. lia.
Qed.

(** *** Searching *)

Lemma find_at_shift pat s i :
  find_at pat s i = option_map (fun j => i + j) (find_at pat s 0).
Proof.
  revert i; induction s as [|c s IH]; intros i; simpl.
  - destruct (starts_with pat ""); simpl; f_equal; lia.
  - destruct (starts_with pat (String c s)); simpl; [f_equal; lia|].
    rewrite (IH (S i)), (IH 1).
    destruct (find_at pat s 0); simpl; f_equal; lia.
Qed.

Lemma find_at_none_indep pat s i j :
  find_at pat s i = None -> find_at pat s j = None.
Proof.
  rewrite (find_at_shift pat s i), (find_at_shift pat s j).
  now destruct (find_at pat s 0).
Qed.

Lemma rfind_none_iff pat s i :
  rfind_at pat s i = None <-> find_at pat s i = None.
Proof.
  revert i; induction s as [|c s IH]; intros i; simpl.
  - reflexivity.
  - specialize (IH (S i)).
    destruct (rfind_at pat s (S i)), (starts_with pat (String c s)),
      (find_at pat s (S i)); intuition congruence.
Qed.

(** The last occurrence is the one after which there is no other. *)
Lemma rfind_at_last pat p c r i :
  starts_with pat (String c r) = true ->
  find_at pat r 0 = None ->
  rfind_at pat (p ++ String c r) i = Some (i + String.length p).
Proof.
  intros Hpat Hnone. revert i.
  induction p as [|x p IH]; intros i.
  - cbn [append rfind_at].
    replace (rfind_at pat r (S i)) with (@None nat)
      by (symmetry; apply rfind_none_iff; eapply find_at_none_indep; eauto).
    rewrite Hpat. simpl. f_equal. lia.
  - cbn [append rfind_at]. rewrite IH. simpl. f_equal. lia.
Qed.

Lemma contains_false s pat : contains s pat = false <-> find_at pat s 0 = None.
Proof.
  unfold contains, find. destruct (find_at pat s 0); intuition congruence.
Qed.

(** An occurrence in a piece of a string is an occurrence in the string. *)
Lemma starts_with_app pat s t :
  starts_with pat s = true -> starts_with pat (s ++ t) = true.
Proof.
  revert s; induction pat as [|a pat IH]; intros [|b s]; simpl; auto; try discriminate.
  intros H. apply andb_true_iff in H as [-> H]. simpl. auto.
Qed.

Lemma contains_app_l s t pat :
  contains s pat = true -> contains (s ++ t) pat = true.
Proof.
  unfold contains, find. generalize 0.
  induction s as [|c s IH]; intros i; simpl.
  - destruct pat; simpl; [|discriminate].
    intros _. destruct t; reflexivity.
  - destruct (starts_with pat (String c s)) eqn:E.
    + intros _. apply (starts_with_app _ _ t) in E. simpl in E. now rewrite E.
    + intros H. destruct (starts_with pat (String c (s ++ t))); auto.
Qed.

Lemma contains_app_r s t pat :
  contains t pat = true -> contains (s ++ t) pat = true.
Proof.
  unfold contains, find. intros H.
  induction s as [|c s IH]; simpl; auto.
  destruct (starts_with pat (String c (s ++ t))); auto.
  destruct (find_at pat (s ++ t) 0) eqn:E; [|discriminate].
  rewrite (find_at_shift _ _ 1), E. reflexivity.
Qed.

Lemma contains_substr_from s pos t pat :
  substr_from s pos = ok t -> contains t pat = true -> contains s pat = true.
Proof.
  unfold substr_from, ok, throw. destruct (size s <? pos)%Z; [discriminate|].
  intros [= <-] H.
  rewrite <- (take_drop (Z.to_nat pos) s). now apply contains_app_r.
Qed.

End StringFacts.

(** ** The trailing segment *)

Section Trailing.

(** For a name that fits a [std::string], [trailing] returns what follows
    the last separator. *)
Lemma trailing_of_segment amplitude seg :
  trailing_segment amplitude seg -> (size amplitude <= npos)%Z ->
  trailing amplitude = ok seg.
Proof.
  intros (p & -> & Hnone) Hsize.
  apply contains_false in Hnone.
  unfold trailing, rfind.
  change (p ++ "::" ++ seg) with (p ++ String ":" (":" ++ seg)) in *.
  rewrite rfind_at_last by (auto).
  cbn [position plus].
  assert (Hlen : String.length (p ++ String ":" (":" ++ seg))
                 = String.length p + 2 + String.length seg).
  { rewrite length_append. simpl. lia. }
  unfold size in Hsize. rewrite Hlen in Hsize.
  unfold size_t_add. unfold npos in Hsize.
  rewrite Z.mod_small by (unfold size_t_modulus in *; lia).
  replace (Z.of_nat (String.length p) + 2)%Z
    with (Z.of_nat (String.length p + 2)) by lia.
  rewrite substr_from_ok by (rewrite Hlen; lia).
  f_equal. rewrite <- drop_drop, drop_app_length. reflexivity.
Qed.

Lemma parse_amplitude_trailing amplitude seg :
  trailing amplitude = ok seg ->
  parse_amplitude amplitude
  = (e <- substr seg 0 1 ;; JP <- substr seg 1 2 ;; m <- substr seg 3 1 ;;
     L <- substr_from seg 4 ;; ok (e, JP, m, L))%result.
Proof. unfold parse_amplitude. now intros ->. Qed.

(** The four fields of a segment of at least four characters. *)
Lemma parse_amplitude_fields amplitude seg :
  trailing amplitude = ok seg -> 4 <= String.length seg ->
  parse_amplitude amplitude
  = ok (take 1 seg, take 2 (drop 1 seg), take 1 (drop 3 seg), drop 4 seg).
Proof.
  intros Ht Hlen. rewrite (parse_amplitude_trailing _ _ Ht).
  change 0%Z with (Z.of_nat 0). change 1%Z with (Z.of_nat 1).
  change 2%Z with (Z.of_nat 2). change 3%Z with (Z.of_nat 3).
  change 4%Z with (Z.of_nat 4).
  rewrite !substr_fixed by lia. rewrite !rbind_ok.
  rewrite substr_from_ok by lia. reflexivity.
Qed.

Lemma fields_append seg :
  4 <= String.length seg ->
  (take 1 seg ++ take 2 (drop 1 seg) ++ take 1 (drop 3 seg) ++ drop 4 seg)%string
  = seg.
Proof.
  destruct seg as [|c1 [|c2 [|c3 [|c4 seg]]]]; simpl; intros H; try lia.
  reflexivity.
Qed.

End Trailing.

Local Open Scope list_scope.

(** ** Facts on maps *)

Section SMapFacts.
Context {V : Type}.
Implicit Types (m : SMap.t V) (k : string) (v : V).

Lemma compare_refl k : String_as_OT.compare k k = Eq.
Proof.
  destruct (String_as_OT.compare_spec k k) as [_|H|H]; auto;
    now apply (StrictOrder_Irreflexive k) in H.
Qed.

Lemma compare_Eq k k' : String_as_OT.compare k k' = Eq -> k = k'.
Proof.
  destruct (String_as_OT.compare_spec k k'); congruence.
Qed.

Lemma compare_Lt_neq k k' : String_as_OT.compare k k' = Lt -> k <> k'.
Proof. intros H ->. rewrite compare_refl in H. discriminate. Qed.

Lemma compare_Gt k k' : String_as_OT.compare k k' = Gt -> String_as_OT.lt k' k.
Proof.
  destruct (String_as_OT.compare_spec k k'); congruence.
Qed.

Lemma compare_Gt_neq k k' : String_as_OT.compare k k' = Gt -> k <> k'.
Proof. intros H ->. rewrite compare_refl in H. discriminate. Qed.

Lemma find_insert_same k v m : SMap.find k (SMap.insert k v m) = Some v.
Proof.
  induction m as [|[k' v'] m IH]; simpl.
  - now rewrite String.eqb_refl.
  - destruct (String_as_OT.compare k k') eqn:E; simpl.
    + now rewrite String.eqb_refl.
    + now rewrite String.eqb_refl.
    + apply compare_Gt_neq, String.eqb_neq in E. now rewrite E.
Qed.

Lemma find_insert_other k k' v m :
  k' <> k -> SMap.find k' (SMap.insert k v m) = SMap.find k' m.
Proof.
  intros Hne. apply String.eqb_neq in Hne.
  induction m as [|[k0 v0] m IH]; simpl.
  - now rewrite Hne.
  - destruct (String_as_OT.compare k k0) eqn:E; simpl.
    + apply compare_Eq in E. subst k0. now rewrite Hne.
    + now rewrite Hne.
    + now rewrite IH.
Qed.

Lemma find_insert k k' v m :
  SMap.find k' (SMap.insert k v m)
  = if String.eqb k' k then Some v else SMap.find k' m.
Proof.
  destruct (String.eqb_spec k' k) as [->|Hne].
  - apply find_insert_same.
  - now apply find_insert_other.
Qed.

Lemma mem_insert k k' v m :
  SMap.mem k' (SMap.insert k v m) = (String.eqb k' k || SMap.mem k' m)%bool.
Proof.
  unfold SMap.mem. rewrite find_insert. now destruct (String.eqb k' k).
Qed.

Lemma find_keys k m : SMap.find k m <> None <-> In k (SMap.keys m).
Proof.
  induction m as [|[k' v'] m IH]; simpl.
  - intuition.
  - destruct (String.eqb_spec k k') as [->|Hne].
    + intuition congruence.
    + rewrite IH. intuition congruence.
Qed.

Lemma mem_keys k m : SMap.mem k m = true <-> In k (SMap.keys m).
Proof.
  rewrite <- find_keys. unfold SMap.mem.
  destruct (SMap.find k m); intuition congruence.
Qed.

Lemma keys_insert k k' v m :
  In k' (SMap.keys (SMap.insert k v m)) <-> k' = k \/ In k' (SMap.keys m).
Proof.
  rewrite <- !mem_keys, mem_insert, orb_true_iff, String.eqb_eq. tauto.
Qed.

Lemma sorted_insert k v m : SMap.sorted m -> SMap.sorted (SMap.insert k v m).
Proof.
  unfold SMap.sorted.
  induction m as [|[k' v'] m IH]; simpl; intros Hs.
  - repeat constructor.
  - inversion Hs as [|? ? Hs' Hall]; subst.
    destruct (String_as_OT.compare_spec k k') as [->|Hlt|Hgt]; simpl.
    + now constructor.
    + constructor; [exact Hs|].
      constructor; [exact Hlt|].
      eapply Forall_impl; [|exact Hall].
      intros x Hx. now transitivity k'.
    + constructor; [now apply IH|].
      apply Forall_forall. intros x Hx.
      apply keys_insert in Hx as [->|Hx]; auto.
      rewrite Forall_forall in Hall. auto.
Qed.

Lemma sorted_NoDup m : SMap.sorted m -> NoDup (SMap.keys m).
Proof.
  unfold SMap.sorted. induction 1 as [|k l Hs IH Hall]; constructor; auto.
  intros Hin. rewrite Forall_forall in Hall.
  now apply Hall, (StrictOrder_Irreflexive k) in Hin.
Qed.

(** Writing under a key that is there leaves the keys as they are. *)
Lemma keys_insert_present k v m :
  SMap.sorted m -> In k (SMap.keys m) ->
  SMap.keys (SMap.insert k v m) = SMap.keys m.
Proof.
  unfold SMap.sorted.
  induction m as [|[k' v'] m IH]; simpl; intros Hs Hin; [tauto|].
  inversion Hs as [|? ? Hs' Hall]; subst.
  destruct (String_as_OT.compare_spec k k') as [->|Hlt|Hgt]; simpl; auto.
  - destruct Hin as [->|Hin]; [now apply (StrictOrder_Irreflexive k) in Hlt|].
    rewrite Forall_forall in Hall. apply Hall in Hin.
    exfalso. apply (StrictOrder_Irreflexive k). now transitivity k'.
  - f_equal. apply IH; auto.
    destruct Hin as [->|Hin]; auto.
    now apply (StrictOrder_Irreflexive k) in Hgt.
Qed.

Lemma find_In k v m : SMap.find k m = Some v -> In (k, v) m.
Proof.
  induction m as [|[k' v'] m IH]; simpl; [discriminate|].
  destruct (String.eqb_spec k k') as [->|Hne]; [intros [= ->]; auto|auto].
Qed.

Lemma In_find k v m : SMap.sorted m -> In (k, v) m -> SMap.find k m = Some v.
Proof.
  intros Hs. apply sorted_NoDup in Hs.
  induction m as [|[k' v'] m IH]; simpl; [tauto|].
  simpl in Hs. inversion Hs as [|? ? Hnotin Hnd]; subst.
  intros [[= -> ->]|Hin].
  - now rewrite String.eqb_refl.
  - destruct (String.eqb_spec k k') as [->|Hne]; auto.
    exfalso. apply Hnotin. now apply (in_map fst) in Hin.
Qed.

Lemma at_key_In dflt k v m :
  SMap.sorted m -> In (k, v) m -> SMap.at_key dflt k m = v.
Proof.
  intros Hs Hin. unfold SMap.at_key. now rewrite (In_find _ _ _ Hs Hin).
Qed.

(** Two sorted maps with the same keys list them in the same order. *)
Lemma sorted_keys_unique (l1 l2 : list string) :
  StronglySorted String_as_OT.lt l1 -> StronglySorted String_as_OT.lt l2 ->
  (forall k, In k l1 <-> In k l2) -> l1 = l2.
Proof.
  intros H1. revert l2.
  induction H1 as [|a l1 Hs1 IH Hall1]; intros l2 H2 Heq.
  - destruct l2 as [|b l2]; auto.
    exfalso. apply (Heq b). now left.
  - destruct H2 as [|b l2 Hs2 Hall2].
    + exfalso. apply (Heq a). now left.
    + rewrite Forall_forall in Hall1, Hall2.
      assert (a = b) as ->.
      { destruct (proj1 (Heq a) (or_introl eq_refl)) as [->|Ha]; auto.
        destruct (proj2 (Heq b) (or_introl eq_refl)) as [->|Hb]; auto.
        exfalso. apply (StrictOrder_Irreflexive a).
        transitivity b; auto. }
      f_equal. apply IH; auto.
      intros k. split; intros Hk.
      * destruct (proj1 (Heq k) (or_intror Hk)) as [<-|]; auto.
        now apply Hall1, (StrictOrder_Irreflexive b) in Hk.
      * destruct (proj2 (Heq k) (or_intror Hk)) as [<-|]; auto.
        now apply Hall2, (StrictOrder_Irreflexive b) in Hk.
Qed.

End SMapFacts.

Local Open Scope string_scope.

(** ** Loops *)

Section Loops.
Context {X S : Type}.
Variable body : X -> S -> result S.

(** An invariant over the elements already visited. *)
Lemma for_each_invariant (P : list X -> S -> Prop) l s s' :
  P [] s ->
  (forall visited x s1 s2,
      P visited s1 -> body x s1 = ok s2 -> P (visited ++ [x])%list s2) ->
  for_each body l s = ok s' -> P l s'.
Proof.
  intros H0 Hstep.
  enough (G : forall visited s,
             P visited s -> for_each body l s = ok s' -> P (visited ++ l)%list s')
    by (apply (G [] s H0)).
  induction l as [|x l IH]; intros visited s1 HP Hrun; simpl in Hrun.
  - injection Hrun as <-. now rewrite app_nil_r.
  - apply rbind_inv in Hrun as (s2 & Hx & Hrun).
    replace (visited ++ x :: l)%list with ((visited ++ [x]) ++ l)%list
      by (now rewrite <- app_assoc).
    eapply IH; eauto.
Qed.

(** A property every step keeps. *)
Lemma for_each_preserves (P : S -> Prop) l s s' :
  P s ->
  (forall x s1 s2, In x l -> P s1 -> body x s1 = ok s2 -> P s2) ->
  for_each body l s = ok s' -> P s'.
Proof.
  revert s. induction l as [|x l IH]; intros s HP Hstep Hrun; simpl in Hrun.
  - now injection Hrun as <-.
  - apply rbind_inv in Hrun as (s2 & Hx & Hrun).
    apply (IH s2); auto.
    + apply (Hstep x s s2); auto. now left.
    + intros y t1 t2 Hy. apply Hstep. now right.
Qed.

(** The loop returns when every step does. *)
Lemma for_each_returns (P : S -> Prop) l s :
  P s ->
  (forall x s1, In x l -> P s1 -> exists s2, body x s1 = ok s2 /\ P s2) ->
  exists s', for_each body l s = ok s'.
Proof.
  revert s. induction l as [|x l IH]; intros s HP Hstep; simpl.
  - eauto.
  - destruct (Hstep x s (or_introl eq_refl) HP) as (s2 & -> & HP2).
    rewrite rbind_ok. apply IH; auto.
    intros y t1 Hy. apply Hstep. now right.
Qed.

Lemma for_each_app l1 l2 s :
  for_each body (l1 ++ l2)%list s
  = (s1 <- for_each body l1 s ;; for_each body l2 s1)%result.
Proof.
  revert s. induction l1 as [|x l1 IH]; intros s; simpl; auto.
  destruct (body x s) as [e|s1]; simpl; auto.
Qed.

Lemma for_each_split l1 x l2 s s' :
  for_each body (l1 ++ x :: l2)%list s = ok s' ->
  exists s1 s2,
    for_each body l1 s = ok s1 /\ body x s1 = ok s2
    /\ for_each body l2 s2 = ok s'.
Proof.
  rewrite for_each_app. intros H.
  apply rbind_inv in H as (s1 & H1 & H). simpl in H.
  apply rbind_inv in H as (s2 & H2 & H). eauto.
Qed.

End Loops.

(** ** Coherent sums *)

Section CoherentSums.

Lemma sorted_types_sorted : StronglySorted String_as_OT.lt sorted_types.
Proof.
  unfold sorted_types.
  repeat (constructor; [|repeat (constructor; try reflexivity)]).
  constructor.
Qed.

Lemma init_coherent_sums_ok : sums_ok init_coherent_sums.
Proof.
  split; [reflexivity|].
  intros type. unfold SMap.at_key.
  destruct (SMap.find type init_coherent_sums) as [sums|] eqn:E;
    [|constructor].
  apply find_In in E. simpl in E.
  repeat (destruct E as [[= <- <-]|E]; [constructor|]). contradiction.
Qed.

Lemma group_init type key : group init_coherent_sums type key = [].
Proof.
  unfold group, SMap.at_key.
  destruct (SMap.find type init_coherent_sums) as [sums|] eqn:E; auto.
  apply find_In in E. simpl in E.
  repeat (destruct E as [[= <- <-]|E]; [reflexivity|]). contradiction.
Qed.

Lemma at_key_insert {V} (dflt : V) k k' v (m : SMap.t V) :
  SMap.at_key dflt k' (SMap.insert k v m)
  = if String.eqb k' k then v else SMap.at_key dflt k' m.
Proof.
  unfold SMap.at_key. rewrite find_insert. now destruct (String.eqb k' k).
Qed.

Lemma group_push_sum type key amplitude cs type' key' :
  group (push_sum type key amplitude cs) type' key'
  = (group cs type' key'
     ++ if String.eqb type' type && String.eqb key' key
        then [amplitude] else [])%list.
Proof.
  unfold group, push_sum, SMap.update.
  rewrite at_key_insert.
  destruct (String.eqb_spec type' type) as [->|Ht]; simpl;
    [|now rewrite app_nil_r].
  rewrite at_key_insert.
  destruct (String.eqb_spec key' key) as [->|Hk]; simpl; auto.
  now rewrite app_nil_r.
Qed.

Lemma sums_ok_push_sum type key amplitude cs :
  In type sorted_types -> sums_ok cs -> sums_ok (push_sum type key amplitude cs).
Proof.
  intros Hin [Hkeys Hsorted]. unfold push_sum, SMap.update. split.
  - rewrite keys_insert_present; auto.
    + unfold SMap.sorted. rewrite Hkeys. apply sorted_types_sorted.
    + now rewrite Hkeys.
  - intros type'. rewrite at_key_insert.
    destruct (String.eqb type' type); auto.
    now apply sorted_insert.
Qed.

Lemma sums_ok_store_sums amplitude e JP m L cs :
  sums_ok cs -> sums_ok (store_sums amplitude e JP m L cs).
Proof.
  intros H. unfold store_sums.
  repeat (apply sums_ok_push_sum; [simpl; tauto|]). exact H.
Qed.

Lemma group_store_sums amplitude e JP m L cs type key :
  group (store_sums amplitude e JP m L cs) type key
  = (group cs type key
     ++ if option_is (sum_key type e JP m L) key then [amplitude] else [])%list.
Proof.
  unfold store_sums. rewrite !group_push_sum. unfold sum_key.
  repeat match goal with
         | |- context [String.eqb type ?t] =>
             destruct (String.eqb_spec type t) as [->|?]
         end;
    simpl; rewrite ?app_nil_r, <- ?app_assoc; simpl; rewrite ?app_nil_r;
    try reflexivity;
    rewrite (String.eqb_sym key); reflexivity.
Qed.

(** What one amplitude adds to the groups. *)
Lemma store_amplitude_sums {D} (results : FitResults D) reaction amplitude
    (m m' : maps D) :
  store_amplitude results reaction amplitude m = ok m' ->
  (forall type key,
      group (coherent_sums m') type key
      = (group (coherent_sums m) type key
         ++ if placed amplitude type key then [amplitude] else [])%list)
  /\ (sums_ok (coherent_sums m) -> sums_ok (coherent_sums m')).
Proof.
  unfold store_amplitude, placed.
  destruct (is_background amplitude).
  - intros [= <-]. cbn [coherent_sums]. split.
    + intros type key. apply group_push_sum.
    + apply sums_ok_push_sum. simpl. tauto.
  - destruct (parse_amplitude amplitude) as [ex|[[[e JP] mp] L]];
      [discriminate|].
    rewrite rbind_ok. intros H.
    apply rbind_inv in H as (pd & _ & [= <-]). cbn [coherent_sums]. split.
    + intros type key. apply group_store_sums.
    + apply sums_ok_store_sums.
Qed.

(** The groups after [fill_maps]: every group holds, in the order of the
    amplitude lists, the amplitudes placed in it. *)
Lemma fill_maps_sums {D} (results : FitResults D) (m m' : maps D) :
  fill_maps results m = ok m' ->
  (forall type key,
      group (coherent_sums m') type key
      = (group (coherent_sums m) type key
         ++ filter (fun a => placed a type key) (all_amplitudes results))%list)
  /\ (sums_ok (coherent_sums m) -> sums_ok (coherent_sums m')).
Proof.
  unfold fill_maps, all_amplitudes. intros Hrun.
  set (m0 := Build_maps D _ _ _ _) in Hrun.
  change (coherent_sums m) with (coherent_sums m0). clearbody m0.
  pattern (reactionList results), m'.
  eapply for_each_invariant; [| |exact Hrun].
  - split; [intros; simpl; now rewrite app_nil_r|auto].
  - intros reactions reaction m1 m2 [Hg Hok] Hinner.
    rewrite flat_map_app. simpl. rewrite app_nil_r.
    pattern (ampList results reaction), m2.
    eapply for_each_invariant; [| |exact Hinner].
    + now rewrite app_nil_r.
    + intros amps a m3 m4 [Hg3 Hok3] Hstep.
      apply store_amplitude_sums in Hstep as [Hg4 Hok4]. split; auto.
      intros type key. rewrite Hg4, Hg3.
      rewrite !filter_app. simpl.
      rewrite <- !app_assoc. destruct (placed a type key); reflexivity.
Qed.

(** [parse_amplitude] returns exactly on the segments of four characters
    or more. *)
Lemma parse_amplitude_inv amplitude e JP m L :
  parse_amplitude amplitude = ok (e, JP, m, L) ->
  exists seg,
    trailing amplitude = ok seg /\ 4 <= String.length seg
    /\ (e, JP, m, L) = label_fields seg /\ eJPmL_of e JP m L = seg.
Proof.
  intros H.
  destruct (trailing amplitude) as [ex|seg] eqn:Ht;
    [unfold parse_amplitude in H; rewrite Ht in H; discriminate|].
  exists seg.
  destruct (Nat.le_gt_cases 4 (String.length seg)) as [Hlen|Hlen].
  - rewrite (parse_amplitude_fields _ _ Ht Hlen) in H.
    injection H as <- <- <- <-.
    repeat split; auto. now apply fields_append.
  - exfalso. rewrite (parse_amplitude_trailing _ _ Ht) in H.
    destruct seg as [|c1 [|c2 [|c3 [|c4 seg]]]]; simpl in Hlen; try lia;
      vm_compute in H; discriminate.
Qed.

Lemma well_formed_parse amplitude :
  well_formed amplitude = true ->
  exists e JP m L, parse_amplitude amplitude = ok (e, JP, m, L).
Proof.
  unfold well_formed.
  destruct (trailing amplitude) as [ex|seg] eqn:Ht; [discriminate|].
  intros H. apply Nat.leb_le in H.
  rewrite (parse_amplitude_fields _ _ Ht H). unfold label_fields. eauto 6.
Qed.

(** The label of an amplitude without the marker is not the reserved one. *)
Lemma label_not_reserved amplitude seg :
  is_background amplitude = false -> trailing amplitude = ok seg ->
  seg <> "Bkgd".
Proof.
  unfold is_background. intros Hbg Ht ->.
  apply orb_false_iff in Hbg as [Hbg _].
  apply (contains_substr_from _ _ _ "Bkgd") in Ht; [congruence|reflexivity].
Qed.

Lemma placed_background amplitude type key :
  is_background amplitude = true ->
  placed amplitude type key = true -> type = "eJPmL" /\ key = "Bkgd".
Proof.
  unfold placed. intros ->. intros H.
  apply andb_true_iff in H as [H1 H2].
  now apply String.eqb_eq in H1, H2.
Qed.

Lemma placed_parsed amplitude e JP m L type key :
  is_background amplitude = false ->
  parse_amplitude amplitude = ok (e, JP, m, L) ->
  placed amplitude type key = true <-> sum_key type e JP m L = Some key.
Proof.
  unfold placed, ok. intros -> ->. unfold option_is.
  destruct (sum_key type e JP m L) as [k|]; [|intuition congruence].
  rewrite String.eqb_eq. intuition congruence.
Qed.

Lemma flat_map_none {A B} (f : A -> list B) l :
  (forall x, In x l -> f x = []) -> flat_map f l = [].
Proof.
  induction l as [|x l IH]; simpl; intros H; auto.
  rewrite (H x), IH; auto.
Qed.

(** In a map without repeated keys, a test that singles out one key
    selects one entry. *)
Lemma one_entry {V} (test : string * V -> bool) (type k0 : string)
    (sums : SMap.t V) :
  NoDup (SMap.keys sums) -> In k0 (SMap.keys sums) ->
  (forall kv, In kv sums -> test kv = true <-> fst kv = k0) ->
  flat_map (fun kv => if test kv then [(type, fst kv)] else []) sums
  = [(type, k0)].
Proof.
  induction sums as [|kv sums IH]; simpl; intros Hnd Hin Htest; [tauto|].
  inversion Hnd as [|? ? Hnotin Hnd']; subst.
  destruct (test kv) eqn:E.
  - apply Htest in E; auto. subst k0. simpl. f_equal.
    apply flat_map_none. intros kv' Hkv'.
    destruct (test kv') eqn:E'; auto.
    apply Htest in E'; auto.
    exfalso. apply Hnotin. rewrite <- E'. now apply in_map.
  - simpl. apply IH; auto.
    destruct Hin as [Heq|Hin]; auto.
    apply Htest in Heq; auto. congruence.
Qed.

Lemma existsb_eqb_In a (l : list string) :
  existsb (String.eqb a) l = true <-> In a l.
Proof.
  rewrite existsb_exists. split.
  - intros (x & Hx & E). apply String.eqb_eq in E. now subst.
  - intros H. exists a. split; auto. apply String.eqb_refl.
Qed.

(** The groups of one type that hold an amplitude placed under [k0]
    only. *)
Lemma holding_one_type (cs : sums_map) (all : list string) type a k0 :
  SMap.sorted (SMap.at_key SMap.empty type cs) ->
  (forall key, group cs type key = filter (fun a => placed a type key) all) ->
  In a all -> (forall key, placed a type key = true <-> key = k0) ->
  flat_map
    (fun kv =>
       if existsb (String.eqb a) (snd kv) then [(type, fst kv)] else [])
    (SMap.at_key SMap.empty type cs)
  = [(type, k0)].
Proof.
  intros Hs Hg Hin Hk.
  assert (Hmem : In a (group cs type k0)).
  { rewrite Hg. apply filter_In. split; auto. now apply Hk. }
  apply one_entry.
  - now apply sorted_NoDup.
  - apply find_keys. unfold group, SMap.at_key in Hmem.
    destruct (SMap.find k0 _); [discriminate|contradiction].
  - intros [k v] Hkv. simpl.
    rewrite existsb_eqb_In.
    replace v with (group cs type k).
    + rewrite Hg, filter_In, Hk. tauto.
    + unfold group. now apply at_key_In.
Qed.

Lemma In_all_amplitudes {D} (results : FitResults D) reaction a :
  In reaction (reactionList results) -> In a (ampList results reaction) ->
  In a (all_amplitudes results).
Proof. intros Hr Ha. apply in_flat_map. eauto. Qed.

Lemma store_phase_diff_returns amplitude eJPmL p pd :
  (is_background p = false -> well_formed p = true) ->
  exists pd', store_phase_diff amplitude eJPmL p pd = ok pd'.
Proof.
  intros Hwf. unfold store_phase_diff.
  destruct (String.eqb p amplitude); [eauto|].
  destruct (is_background p); [eauto|].
  specialize (Hwf eq_refl). unfold well_formed in Hwf.
  destruct (trailing p) as [ex|sp]; [discriminate|].
  rewrite rbind_ok.
  destruct (SMap.mem _ pd); [eauto|].
  destruct (negb _); eauto.
Qed.

(** [fill_maps] returns when every amplitude without the marker has a
    trailing segment of four characters or more. *)
Lemma fill_maps_returns {D} (results : FitResults D) (m : maps D) :
  (forall a, In a (all_amplitudes results) ->
             is_background a = false -> well_formed a = true) ->
  exists m', fill_maps results m = ok m'.
Proof.
  intros Hwf. unfold fill_maps.
  apply (for_each_returns _ (fun _ => True)); auto.
  intros reaction m1 Hr _.
  assert (exists m2, for_each (store_amplitude results reaction)
                       (ampList results reaction) m1 = ok m2) as (m2 & ->);
    [|eauto].
  assert (Hlist : forall a, In a (ampList results reaction) ->
                            is_background a = false -> well_formed a = true)
    by (intros a Ha; apply Hwf; eapply In_all_amplitudes; eauto).
  apply (for_each_returns _ (fun _ => True)); auto.
  intros a m3 Ha _. unfold store_amplitude.
  destruct (is_background a) eqn:Hbg; [eauto|].
  destruct (well_formed_parse a (Hlist a Ha Hbg)) as (e & JP & mp & L & ->).
  rewrite rbind_ok.
  destruct (for_each_returns (store_phase_diff a (eJPmL_of e JP mp L))
              (fun _ => True) (ampList results reaction) (phase_diffs m3) I)
    as (pd & ->).
  - intros p pd Hp _.
    destruct (store_phase_diff_returns a (eJPmL_of e JP mp L) p pd
                (Hlist p Hp)) as (pd' & ->).
    eauto.
  - rewrite rbind_ok. eauto.
Qed.

(** And only then: an amplitude the loop got past was parsed. *)
Lemma fill_maps_returned {D} (results : FitResults D) (m m' : maps D) a :
  fill_maps results m = ok m' ->
  In a (all_amplitudes results) -> is_background a = false ->
  well_formed a = true.
Proof.
  unfold fill_maps, all_amplitudes. intros Hrun Hin Hbg.
  apply in_flat_map in Hin as (reaction & Hr & Ha).
  apply in_split in Hr as (rs1 & rs2 & Hr). rewrite Hr in Hrun.
  apply for_each_split in Hrun as (m1 & m2 & _ & Hinner & _).
  apply in_split in Ha as (l1 & l2 & Ha). rewrite Ha in Hinner.
  apply for_each_split in Hinner as (m3 & m4 & _ & Hstep & _).
  unfold store_amplitude in Hstep. rewrite Hbg in Hstep.
  destruct (parse_amplitude a) as [ex|[[[e JP] mp] L]] eqn:Hparse;
    [discriminate|].
  destruct (parse_amplitude_inv _ _ _ _ _ Hparse) as (seg & Ht & Hlen & _).
  unfold well_formed. unfold ok in Ht. rewrite Ht. now apply Nat.leb_le.
Qed.

Lemma flat_map_ext_In {A B} (f g : A -> list B) l :
  (forall x, In x l -> f x = g x) -> flat_map f l = flat_map g l.
Proof.
  induction l as [|x l IH]; simpl; intros H; auto.
  rewrite (H x), IH; auto.
Qed.

Lemma flat_map_map {A B C} (f : A -> B) (g : B -> list C) l :
  flat_map g (map f l) = flat_map (fun x => g (f x)) l.
Proof. induction l as [|x l IH]; simpl; congruence. Qed.

(** A traversal of a map meets, key after key, the value under the key. *)
Lemma flat_map_entries {V B} (F : string -> V -> list B) dflt (m : SMap.t V) :
  SMap.sorted m ->
  flat_map (fun kv => F (fst kv) (snd kv)) m
  = flat_map (fun k => F k (SMap.at_key dflt k m)) (SMap.keys m).
Proof.
  intros Hs. unfold SMap.keys.
  transitivity (flat_map (fun kv => F (fst kv) (SMap.at_key dflt (fst kv) m)) m).
  - apply flat_map_ext_In. intros [k v] Hin. simpl.
    now rewrite (at_key_In dflt k v m Hs Hin).
  - symmetry.
    apply (flat_map_map fst (fun k => F k (SMap.at_key dflt k m))).
Qed.

Lemma sums_ok_sorted cs : sums_ok cs -> SMap.sorted cs.
Proof.
  intros [Hk _]. unfold SMap.sorted. rewrite Hk. apply sorted_types_sorted.
Qed.

Lemma groups_holding_by_type a cs :
  sums_ok cs ->
  groups_holding a cs
  = flat_map
      (fun type =>
         flat_map
           (fun kv =>
              if existsb (String.eqb a) (snd kv) then [(type, fst kv)] else [])
           (SMap.at_key SMap.empty type cs))
      sorted_types.
Proof.
  intros Hok. unfold groups_holding.
  rewrite (flat_map_entries
             (fun type sums =>
                flat_map
                  (fun kv =>
                     if existsb (String.eqb a) (snd kv)
                     then [(type, fst kv)] else []) sums)
             SMap.empty cs (sums_ok_sorted cs Hok)).
  destruct Hok as [Hkeys _]. f_equal. exact Hkeys.
Qed.

(** The seven groups of a parsed amplitude. *)
Lemma groups_holding_parsed (cs : sums_map) (all : list string) a e JP m L :
  sums_ok cs ->
  (forall type key,
      group cs type key = filter (fun a => placed a type key) all) ->
  In a all -> is_background a = false ->
  parse_amplitude a = ok (e, JP, m, L) ->
  groups_holding a cs
  = [("JP", JP); ("JPL", JP ++ L); ("JPmL", JP ++ m ++ L); ("e", e);
     ("eJP", e ++ JP); ("eJPL", e ++ JP ++ L); ("eJPmL", e ++ JP ++ m ++ L)].
Proof.
  intros Hok Hg Hin Hbg Hparse.
  rewrite (groups_holding_by_type a cs Hok).
  destruct Hok as [_ Hsorted].
  assert (Hone : forall type k0,
             sum_key type e JP m L = Some k0 ->
             flat_map
               (fun kv =>
                  if existsb (String.eqb a) (snd kv)
                  then [(type, fst kv)] else [])
               (SMap.at_key SMap.empty type cs)
             = [(type, k0)]).
  { intros type k0 Hk. apply (holding_one_type cs all); auto.
    intros key. rewrite (placed_parsed a e JP m L type key Hbg Hparse).
    rewrite Hk. intuition congruence. }
  unfold sorted_types. cbn [flat_map].
  rewrite (Hone "JP" JP), (Hone "JPL" (JP ++ L)), (Hone "JPmL" (JP ++ m ++ L)),
    (Hone "e" e), (Hone "eJP" (e ++ JP)), (Hone "eJPL" (e ++ JP ++ L)),
    (Hone "eJPmL" (e ++ JP ++ m ++ L)) by reflexivity.
  reflexivity.
Qed.

(** Each coarser group is made of the parsed groups of the finest type
    whose labels map to its key. *)
Lemma coarser_group_union (cs : sums_map) (all : list string) type key a :
  (forall type key,
      group cs type key = filter (fun a => placed a type key) all) ->
  type <> "eJPmL" ->
  In a (group cs type key)
  <-> exists label,
      label <> "Bkgd" /\ coarser_key type label = Some key
      /\ In a (group cs "eJPmL" label).
Proof.
  intros Hg Htype. rewrite Hg, filter_In. split.
  - intros [Hin Hpl].
    destruct (is_background a) eqn:Hbg.
    + apply placed_background in Hpl as [-> _]; auto. contradiction.
    + unfold placed in Hpl. rewrite Hbg in Hpl.
      destruct (parse_amplitude a) as [ex|[[[e JP] m] L]] eqn:Hparse;
        [discriminate|].
      destruct (parse_amplitude_inv _ _ _ _ _ Hparse)
        as (seg & Ht & Hlen & Hfields & Hlabel).
      exists seg. repeat split.
      * now apply (label_not_reserved a).
      * unfold coarser_key. rewrite <- Hfields.
        unfold option_is in Hpl.
        destruct (sum_key type e JP m L) as [k|]; [|discriminate].
        apply String.eqb_eq in Hpl. now subst.
      * rewrite Hg, filter_In. split; auto.
        apply (placed_parsed a e JP m L); auto.
        unfold sum_key. simpl. now rewrite Hlabel.
  - intros (label & Hres & Hkey & Hmem).
    rewrite Hg, filter_In in Hmem. destruct Hmem as [Hin Hpl]. split; auto.
    destruct (is_background a) eqn:Hbg.
    + apply placed_background in Hpl as [_ Hlabel]; auto; contradiction.
    + unfold placed in Hpl |- *. rewrite Hbg in Hpl |- *.
      destruct (parse_amplitude a) as [ex|[[[e JP] m] L]] eqn:Hparse;
        [discriminate|].
      destruct (parse_amplitude_inv _ _ _ _ _ Hparse)
        as (seg & Ht & Hlen & Hfields & Hlabel).
      unfold sum_key in Hpl. simpl in Hpl.
      apply String.eqb_eq in Hpl. rewrite Hlabel in Hpl. subst label.
      unfold coarser_key in Hkey. rewrite <- Hfields in Hkey.
      rewrite Hkey. simpl. apply String.eqb_refl.
Qed.

End CoherentSums.

(** ** Phase differences *)

Section PhaseDiffs.

Lemma no_underscore_app a b : no_underscore (a ++ String "_" b) = false.
Proof.
  induction a as [|c a IH]; simpl; auto.
  rewrite IH. apply andb_false_r.
Qed.

(** A key made of two segments without underscore tells the segments. *)
Lemma pair_key_inj u v c d :
  no_underscore u = true -> no_underscore v = true ->
  pair_key c d = pair_key u v -> c = u /\ d = v.
Proof.
  unfold pair_key. intros Hu Hv. revert c Hu.
  induction u as [|a u IH]; intros [|x c] Hu; simpl; intros H.
  - injection H as ->. auto.
  - injection H as -> <-.
    change (no_underscore (c ++ String "_" d) = true) in Hv.
    now rewrite no_underscore_app in Hv.
  - injection H as <-. simpl in Hu. discriminate.
  - injection H as -> H. simpl in Hu.
    apply andb_true_iff in Hu as [_ Hu].
    destruct (IH c Hu H) as [-> ->]. auto.
Qed.

Lemma pair_key_swap u v :
  no_underscore u = true -> no_underscore v = true ->
  pair_key u v = pair_key v u -> u = v.
Proof. intros Hu Hv H. now apply (pair_key_inj v u u v) in H. Qed.

(** The ways the body of the inner loop can end. *)
Lemma store_phase_diff_cases amplitude eJPmL p pd pd' :
  store_phase_diff amplitude eJPmL p pd = ok pd' ->
  pd' = pd
  \/ exists sp,
      p <> amplitude /\ is_background p = false /\ trailing p = ok sp
      /\ SMap.mem (pair_key sp eJPmL) pd = false
      /\ front eJPmL = front sp
      /\ pd' = SMap.insert (pair_key eJPmL sp) (amplitude, p) pd.
Proof.
  unfold store_phase_diff.
  destruct (String.eqb_spec p amplitude) as [->|Hne]; [intros [= <-]; auto|].
  destruct (is_background p) eqn:Hbg; [intros [= <-]; auto|].
  destruct (trailing p) as [ex|sp] eqn:Ht; [discriminate|].
  rewrite rbind_ok. fold (pair_key sp eJPmL). fold (pair_key eJPmL sp).
  destruct (SMap.mem (pair_key sp eJPmL) pd) eqn:Hmem; [intros [= <-]; auto|].
  destruct (Ascii.eqb_spec (front eJPmL) (front sp)) as [Hf|Hf]; simpl;
    intros [= <-]; auto.
  right. exists sp. auto 10.
Qed.

(** A pair that passes the tests is registered, unless its swapped key
    is. *)
Lemma store_phase_diff_registers amplitude eJPmL p sp pd pd' :
  store_phase_diff amplitude eJPmL p pd = ok pd' ->
  p <> amplitude -> is_background p = false -> trailing p = ok sp ->
  front eJPmL = front sp ->
  (SMap.mem (pair_key sp eJPmL) pd = true /\ pd' = pd)
  \/ (SMap.mem (pair_key sp eJPmL) pd = false
      /\ pd' = SMap.insert (pair_key eJPmL sp) (amplitude, p) pd).
Proof.
  unfold store_phase_diff. intros H Hne Hbg Ht Hf.
  apply String.eqb_neq in Hne. rewrite Hne, Hbg, Ht, rbind_ok in H.
  fold (pair_key sp eJPmL) in H. fold (pair_key eJPmL sp) in H.
  destruct (SMap.mem (pair_key sp eJPmL) pd); [injection H as <-; auto|].
  rewrite Hf, Ascii.eqb_refl in H. simpl in H. injection H as <-. auto.
Qed.

Lemma visit_step_inv a p pd pd' :
  visit_step (a, p) pd = ok pd' ->
  exists sa,
    trailing a = ok sa /\ 4 <= String.length sa
    /\ store_phase_diff a sa p pd = ok pd'.
Proof.
  unfold visit_step. cbn [fst snd]. intros H.
  destruct (parse_amplitude a) as [ex|[[[e JP] m] L]] eqn:Hparse;
    [discriminate|].
  rewrite rbind_ok in H.
  destruct (parse_amplitude_inv _ _ _ _ _ Hparse)
    as (sa & Ht & Hlen & _ & Hlabel).
  exists sa. rewrite Hlabel in H. auto.
Qed.

(** The keys of the map only grow. *)
Lemma visit_step_grows v pd pd' key :
  visit_step v pd = ok pd' ->
  SMap.mem key pd = true -> SMap.mem key pd' = true.
Proof.
  destruct v as [a p]. intros H Hmem.
  apply visit_step_inv in H as (sa & _ & _ & H).
  apply store_phase_diff_cases in H as [->|(sp & _ & _ & _ & _ & _ & ->)];
    auto.
  rewrite mem_insert, Hmem. apply orb_true_r.
Qed.

Lemma visits_grow l pd pd' key :
  for_each visit_step l pd = ok pd' ->
  SMap.mem key pd = true -> SMap.mem key pd' = true.
Proof.
  intros Hrun Hmem.
  apply (for_each_preserves visit_step
           (fun pd => SMap.mem key pd = true) l pd pd'); auto.
  intros v pd1 pd2 _ H1 Hstep. eapply visit_step_grows; eauto.
Qed.

Lemma visit_step_ok a p pd pd' :
  is_background a = false -> phase_ok pd ->
  visit_step (a, p) pd = ok pd' -> phase_ok pd'.
Proof.
  intros Hbg Hok H.
  apply visit_step_inv in H as (sa & Hta & _ & H).
  apply store_phase_diff_cases in H
      as [->|(sp & Hne & Hbgp & Htp & _ & Hf & ->)]; auto.
  intros key pd_pair. rewrite find_insert.
  destruct (String.eqb_spec key (pair_key sa sp)) as [->|_]; [|apply Hok].
  intros [= <-]. unfold entry_ok. cbn [fst snd].
  repeat split; auto. exists sa, sp. auto.
Qed.

Lemma in_visits {D} (results : FitResults D) a p :
  In (a, p) (visits results)
  <-> is_background a = false
      /\ exists reaction,
        In reaction (reactionList results)
        /\ In a (ampList results reaction) /\ In p (ampList results reaction).
Proof.
  unfold visits. rewrite in_flat_map. split.
  - intros (reaction & Hr & H). apply in_flat_map in H as (a' & Ha' & H).
    destruct (is_background a') eqn:Hbg; [contradiction|].
    apply in_map_iff in H as (p' & [= <- <-] & Hp). eauto 6.
  - intros (Hbg & reaction & Hr & Ha & Hp).
    exists reaction. split; auto. apply in_flat_map. exists a. split; auto.
    rewrite Hbg. now apply in_map.
Qed.

Lemma visits_of_amplitude a inner e JP mp L pd :
  parse_amplitude a = ok (e, JP, mp, L) ->
  for_each visit_step (map (pair a) inner) pd
  = for_each (store_phase_diff a (eJPmL_of e JP mp L)) inner pd.
Proof.
  intros Hparse. revert pd.
  induction inner as [|p inner IH]; intros pd; simpl; auto.
  unfold visit_step at 1. cbn [fst snd]. rewrite Hparse, rbind_ok.
  destruct (store_phase_diff a (eJPmL_of e JP mp L) p pd); simpl; auto.
Qed.

Lemma store_amplitude_visits {D} (results : FitResults D) reaction a
    (m m' : maps D) :
  store_amplitude results reaction a m = ok m' ->
  for_each visit_step
    (if is_background a then [] else map (pair a) (ampList results reaction))
    (phase_diffs m)
  = ok (phase_diffs m').
Proof.
  unfold store_amplitude.
  destruct (is_background a); [now intros [= <-]|].
  destruct (parse_amplitude a) as [ex|[[[e JP] mp] L]] eqn:Hparse;
    [discriminate|].
  rewrite rbind_ok. intros H.
  apply rbind_inv in H as (pd & Hpd & [= <-]). cbn [phase_diffs].
  now rewrite (visits_of_amplitude a _ e JP mp L).
Qed.

Lemma reaction_visits {D} (results : FitResults D) reaction l (m m' : maps D) :
  for_each (store_amplitude results reaction) l m = ok m' ->
  for_each visit_step
    (flat_map
       (fun amplitude =>
          if is_background amplitude then []
          else map (pair amplitude) (ampList results reaction)) l)
    (phase_diffs m)
  = ok (phase_diffs m').
Proof.
  revert m. induction l as [|a l IH]; intros m Hrun; simpl in Hrun |- *.
  - now injection Hrun as <-.
  - apply rbind_inv in Hrun as (m1 & Hstep & Hrun).
    rewrite for_each_app, (store_amplitude_visits _ _ _ _ _ Hstep), rbind_ok.
    now apply IH.
Qed.

(** The phase differences [fill_maps] leaves are those of the visits. *)
Lemma fill_maps_visits {D} (results : FitResults D) (m m' : maps D) :
  fill_maps results m = ok m' ->
  for_each visit_step (visits results) (phase_diffs m) = ok (phase_diffs m').
Proof.
  unfold fill_maps, visits.
  set (m0 := Build_maps D _ _ _ _).
  change (phase_diffs m) with (phase_diffs m0). clearbody m0.
  revert m0. induction (reactionList results) as [|reaction rs IH];
    intros m0 Hrun; simpl in Hrun |- *.
  - now injection Hrun as <-.
  - apply rbind_inv in Hrun as (m1 & Hinner & Hrun).
    rewrite for_each_app, (reaction_visits _ _ _ _ _ Hinner), rbind_ok.
    now apply IH.
Qed.

Lemma visits_phase_ok {D} (results : FitResults D) pd :
  for_each visit_step (visits results) SMap.empty = ok pd -> phase_ok pd.
Proof.
  apply for_each_preserves.
  - intros key pd_pair. discriminate.
  - intros [a p] pd1 pd2 Hin Hok Hstep.
    apply in_visits in Hin as [Hbg _].
    eapply visit_step_ok; eauto.
Qed.

(** Entries come with their keys. *)
Lemma mem_find {V} key (m : SMap.t V) :
  SMap.mem key m = true -> exists v, SMap.find key m = Some v.
Proof. unfold SMap.mem. destruct (SMap.find key m); [eauto|discriminate]. Qed.

(** Of the two keys of a pair of segments, one visit never makes the
    second. *)
Lemma visit_step_one_key sa sb v pd pd' :
  no_underscore sa = true -> no_underscore sb = true -> sa <> sb ->
  visit_step v pd = ok pd' ->
  ~ (SMap.mem (pair_key sa sb) pd = true /\ SMap.mem (pair_key sb sa) pd = true) ->
  ~ (SMap.mem (pair_key sa sb) pd' = true
     /\ SMap.mem (pair_key sb sa) pd' = true).
Proof.
  intros Hsa Hsb Hne H Hinv. destruct v as [x p].
  apply visit_step_inv in H as (sx & _ & _ & H).
  apply store_phase_diff_cases in H
      as [->|(sp & _ & _ & _ & Hswap & _ & ->)]; auto.
  rewrite !mem_insert, !orb_true_iff, !String.eqb_eq.
  intros [[H1|H1] [H2|H2]].
  - apply Hne. apply pair_key_swap; auto. congruence.
  - symmetry in H1. apply pair_key_inj in H1 as [-> ->]; auto. congruence.
  - symmetry in H2. apply pair_key_inj in H2 as [-> ->]; auto. congruence.
  - apply Hinv. auto.
Qed.

(** A visit whose segments are not [sb] then [sa] does not make the key
    of [sb] and [sa]. *)
Lemma visit_step_other_key sa sb x p pd pd' :
  no_underscore sa = true -> no_underscore sb = true ->
  ~ (trailing x = ok sb /\ trailing p = ok sa /\ is_background p = false) ->
  visit_step (x, p) pd = ok pd' ->
  SMap.mem (pair_key sb sa) pd = false ->
  SMap.mem (pair_key sb sa) pd' = false.
Proof.
  intros Hsa Hsb Hnot H Hmem.
  apply visit_step_inv in H as (sx & Hx & _ & H).
  apply store_phase_diff_cases in H
      as [->|(sp & _ & Hbg & Hp & _ & _ & ->)]; auto.
  rewrite mem_insert, Hmem, orb_false_r. apply String.eqb_neq.
  intros Hkey. symmetry in Hkey.
  apply pair_key_inj in Hkey as [-> ->]; auto.
Qed.

(** The visit of a pair that passes the tests leaves one of its keys. *)
Lemma visit_step_registers a p sa sp pd pd' :
  visit_step (a, p) pd = ok pd' ->
  trailing a = ok sa -> trailing p = ok sp -> p <> a ->
  is_background p = false -> front sa = front sp ->
  (SMap.mem (pair_key sp sa) pd = true /\ pd' = pd)
  \/ (SMap.mem (pair_key sp sa) pd = false
      /\ SMap.mem (pair_key sa sp) pd' = true).
Proof.
  intros H Ha Hp Hne Hbg Hf.
  apply visit_step_inv in H as (sa' & Ha' & _ & H).
  assert (sa' = sa) as -> by same_result.
  apply (store_phase_diff_registers _ _ _ sp) in H as [[H1 H2]|[H1 ->]]; auto.
  right. split; auto. rewrite mem_insert, String.eqb_refl. reflexivity.
Qed.

Lemma contains_marker front_part marker back_part :
  contains (front_part ++ marker ++ back_part) marker = true.
Proof.
  apply contains_app_r, contains_app_l.
  unfold contains, find.
  assert (H : starts_with marker marker = true)
    by (induction marker as [|c mk IH]; simpl; auto;
        now rewrite Ascii.eqb_refl).
  destruct marker; simpl in *; auto. now rewrite H.
Qed.

Lemma starts_with_prefix pat s :
  starts_with pat s = true -> exists back_part, s = pat ++ back_part.
Proof.
  revert s. induction pat as [|c pat IH]; intros s H; simpl in H.
  - exists s. reflexivity.
  - destruct s as [|x s]; [discriminate|].
    apply andb_true_iff in H as [Hc H]. apply Ascii.eqb_eq in Hc as ->.
    destruct (IH s H) as (back_part & ->). now exists back_part.
Qed.

(** A string found in a name splits the name. *)
Lemma contains_split s pat :
  contains s pat = true ->
  exists front_part back_part, s = front_part ++ pat ++ back_part.
Proof.
  unfold contains, find.
  enough (G : forall i j, find_at pat s i = Some j ->
                          exists front_part back_part,
                            s = front_part ++ pat ++ back_part).
  { destruct (find_at pat s 0) as [j|] eqn:E; [|discriminate].
    intros _. exact (G 0 j E). }
  induction s as [|c s IH]; intros i j H; simpl in H.
  - destruct (starts_with pat "") eqn:E; [|discriminate].
    apply starts_with_prefix in E as (back_part & E). now exists "", back_part.
  - destruct (starts_with pat (String c s)) eqn:E.
    + apply starts_with_prefix in E as (back_part & E).
      now exists "", back_part.
    + destruct (IH _ _ H) as (front_part & back_part & ->).
      now exists (String c front_part), back_part.
Qed.

(** The background test holds of the names with a marker in them, and of no
    other name. *)
Lemma is_background_iff amplitude :
  is_background amplitude = true
  <-> exists front_part marker back_part,
      (marker = "Bkgd" \/ marker = "iso")
      /\ amplitude = front_part ++ marker ++ back_part.
Proof.
  unfold is_background. rewrite orb_true_iff. split.
  - intros [H|H]; apply contains_split in H as (f & b & ->).
    + exists f, "Bkgd", b. auto.
    + exists f, "iso", b. auto.
  - intros (f & mk & b & [->| ->] & ->); [left|right]; apply contains_marker.
Qed.

(** Where an amplitude with the marker ends up. *)
Lemma background_routing {D} (results : FitResults D) (m' : maps D) a :
  fill_maps results init_maps = ok m' ->
  is_background a = true ->
  group (coherent_sums m') "eJPmL" "Bkgd"
  = filter is_background (all_amplitudes results)
  /\ (forall type key,
         In a (group (coherent_sums m') type key) ->
         type = "eJPmL" /\ key = "Bkgd")
  /\ (forall key pd_pair,
         SMap.find key (phase_diffs m') = Some pd_pair ->
         fst pd_pair <> a /\ snd pd_pair <> a).
Proof.
  intros Hrun Hbg.
  destruct (fill_maps_sums results init_maps m' Hrun) as [Hg _].
  assert (Hg' : forall type key,
             group (coherent_sums m') type key
             = filter (fun a => placed a type key) (all_amplitudes results)).
  { intros type key. rewrite Hg. cbn [coherent_sums init_maps].
    now rewrite group_init. }
  split; [|split].
  - rewrite Hg'. apply filter_ext. intros b. unfold placed.
    destruct (is_background b) eqn:Hb; auto.
    destruct (parse_amplitude b) as [ex|[[[e JP] m] L]] eqn:Hparse; auto.
    destruct (parse_amplitude_inv _ _ _ _ _ Hparse)
      as (seg & Ht & _ & _ & Hlabel).
    unfold sum_key. simpl. rewrite Hlabel.
    apply String.eqb_neq. now apply (label_not_reserved b).
  - intros type key Hin. rewrite Hg', filter_In in Hin.
    destruct Hin as [_ Hpl]. now apply (placed_background a).
  - intros key pd_pair Hfind.
    apply fill_maps_visits, visits_phase_ok in Hrun.
    apply Hrun in Hfind as (H1 & H2 & _).
    split; intros E; rewrite E in *; congruence.
Qed.

End PhaseDiffs.

(** ** Columns *)

Section Columns.

Lemma flat_map_flat_map {A B C} (f : A -> list B) (g : B -> list C) l :
  flat_map g (flat_map f l) = flat_map (fun x => flat_map g (f x)) l.
Proof.
  induction l as [|x l IH]; simpl; auto.
  now rewrite flat_map_app, IH.
Qed.

Lemma filter_flat_map {A B} (test : B -> bool) (f : A -> list B) l :
  filter test (flat_map f l) = flat_map (fun x => filter test (f x)) l.
Proof.
  induction l as [|x l IH]; simpl; auto.
  now rewrite filter_app, IH.
Qed.

Lemma calls_app evs1 evs2 : calls (evs1 ++ evs2) = (calls evs1 ++ calls evs2)%list.
Proof. apply flat_map_app. Qed.

Lemma calls_for_range {X} (l : list X) body :
  calls (for_range l body) = flat_map (fun x => calls (body x)) l.
Proof. apply flat_map_flat_map. Qed.

Lemma csv_text_app evs1 evs2 :
  csv_text (evs1 ++ evs2) = csv_text evs1 ++ csv_text evs2.
Proof.
  induction evs1 as [|ev evs1 IH]; simpl; auto.
  now rewrite IH, append_assoc.
Qed.

(** The keys under a type after a push. *)
Lemma keys_push_sum type key amplitude cs type' key' :
  In key' (SMap.keys (SMap.at_key SMap.empty type'
                        (push_sum type key amplitude cs)))
  <-> (String.eqb type' type && String.eqb key' key = true)
      \/ In key' (SMap.keys (SMap.at_key SMap.empty type' cs)).
Proof.
  unfold push_sum, SMap.update. rewrite at_key_insert.
  destruct (String.eqb_spec type' type) as [->|Hne]; simpl.
  - rewrite keys_insert, String.eqb_eq. tauto.
  - intuition discriminate.
Qed.

Lemma keys_store_sums amplitude e JP m L cs type key :
  In key (SMap.keys (SMap.at_key SMap.empty type
                       (store_sums amplitude e JP m L cs)))
  <-> option_is (sum_key type e JP m L) key = true
      \/ In key (SMap.keys (SMap.at_key SMap.empty type cs)).
Proof.
  unfold store_sums. rewrite !keys_push_sum. unfold sum_key.
  repeat match goal with
         | |- context [String.eqb type ?t] =>
             destruct (String.eqb_spec type t) as [->|?]
         end;
    simpl; rewrite ?(String.eqb_sym key); intuition discriminate.
Qed.

Lemma store_amplitude_keys {D} (results : FitResults D) reaction a
    (m m' : maps D) type key :
  store_amplitude results reaction a m = ok m' ->
  In key (SMap.keys (SMap.at_key SMap.empty type (coherent_sums m')))
  <-> placed a type key = true
      \/ In key (SMap.keys (SMap.at_key SMap.empty type (coherent_sums m))).
Proof.
  unfold store_amplitude, placed.
  destruct (is_background a).
  - intros [= <-]. cbn [coherent_sums]. apply keys_push_sum.
  - destruct (parse_amplitude a) as [ex|[[[e JP] mp] L]];
      [discriminate|].
    rewrite rbind_ok. intros H.
    apply rbind_inv in H as (pd & _ & [= <-]). cbn [coherent_sums].
    apply keys_store_sums.
Qed.

(** The keys under a type after [fill_maps]: those the amplitudes were
    placed under. *)
Lemma fill_maps_keys {D} (results : FitResults D) (m m' : maps D) type key :
  fill_maps results m = ok m' ->
  In key (SMap.keys (SMap.at_key SMap.empty type (coherent_sums m')))
  <-> (exists a, In a (all_amplitudes results) /\ placed a type key = true)
      \/ In key (SMap.keys (SMap.at_key SMap.empty type (coherent_sums m))).
Proof.
  unfold fill_maps, all_amplitudes. intros Hrun.
  set (m0 := Build_maps D _ _ _ _) in Hrun.
  change (coherent_sums m) with (coherent_sums m0). clearbody m0.
  pattern (reactionList results), m'.
  eapply for_each_invariant; [| |exact Hrun].
  - simpl. split; [tauto|]. intros [(a & [] & _)|H]; auto.
  - intros reactions reaction m1 m2 Hinv Hinner.
    rewrite flat_map_app. simpl. rewrite app_nil_r.
    pattern (ampList results reaction), m2.
    eapply for_each_invariant; [| |exact Hinner].
    + now rewrite app_nil_r.
    + intros amps a m3 m4 Hinv3 Hstep.
      rewrite (store_amplitude_keys _ _ _ _ _ type key Hstep), Hinv3.
      split.
      * intros [Hpl|[(b & Hb & Hpl)|H]]; auto.
        -- left. exists a. split; auto. rewrite !in_app_iff. simpl. auto.
        -- left. exists b. split; auto. rewrite !in_app_iff in *. tauto.
      * intros [(b & Hb & Hpl)|H]; auto.
        rewrite !in_app_iff in Hb. simpl in Hb.
        destruct Hb as [Hb|[Hb|[<-|[]]]]; auto.
        -- right. left. exists b. rewrite !in_app_iff. auto.
        -- right. left. exists b. rewrite !in_app_iff. auto.
Qed.

Lemma sum_entries_by_type cs :
  sums_ok cs ->
  sum_entries cs
  = flat_map
      (fun type =>
         map (fun kv => (type, fst kv, snd kv))
           (SMap.at_key SMap.empty type cs))
      sorted_types.
Proof.
  intros Hok. unfold sum_entries.
  rewrite (flat_map_entries
             (fun type (_ : SMap.t (list string)) =>
                map (fun kv => (type, fst kv, snd kv))
                  (SMap.at_key SMap.empty type cs))
             SMap.empty cs (sums_ok_sorted cs Hok)).
  destruct Hok as [Hkeys _]. f_equal. exact Hkeys.
Qed.

Lemma sum_columns_by_type cs :
  sums_ok cs ->
  sum_columns cs
  = flat_map (fun type => SMap.keys (SMap.at_key SMap.empty type cs))
      sorted_types.
Proof.
  intros Hok. unfold sum_columns. rewrite (sum_entries_by_type cs Hok).
  unfold sorted_types. cbn [flat_map]. rewrite !map_app, !map_map. simpl.
  reflexivity.
Qed.

End Columns.

(** ** Writing a row *)

Section RowQueries.
Context {D : Type}.
Variable show : D -> string.

(** The calls of the handle while the values of a row are written. *)
Lemma calls_write_values (results : FitResults D) (m : maps D) acc :
  calls (write_values show results m acc)
  = (Q_parNameList
     :: flat_map
          (fun par_name =>
             if contains par_name "::" then []
             else [Q_parValue par_name; Q_parError par_name])
          (parNameList results)
     ++ flat_map
          (fun entry =>
             [Q_intensity (snd entry) acc; Q_intensity (snd entry) acc])
          (sum_entries (coherent_sums m))
     ++ flat_map
          (fun kv =>
             [Q_phaseDiff (fst (snd kv)) (snd (snd kv));
              Q_phaseDiff (fst (snd kv)) (snd (snd kv))])
          (phase_diffs m))%list.
Proof.
  unfold write_values. rewrite !calls_app, !calls_for_range.
  rewrite (flat_map_none _ (standard_results m)) by reflexivity.
  rewrite (flat_map_none _ (production_coefficients m)) by reflexivity.
  simpl. f_equal. f_equal; [|f_equal].
  - apply flat_map_ext. intros n. now destruct (contains n "::").
  - unfold sum_entries. rewrite flat_map_flat_map.
    apply flat_map_ext. intros sum_entry.
    rewrite calls_for_range, flat_map_map. reflexivity.
Qed.

End RowQueries.

Section ColumnOrder.
Context {D : Type}.
Variable show : D -> string.

Lemma header_sum_columns (results : FitResults D) (m : maps D) :
  exists before after,
    write_header results m
    = (before
       ++ for_range (sum_columns (coherent_sums m))
            (fun key => [Csv key; Csv ","; Csv key; Csv "_err,"])
       ++ after)%list.
Proof.
  exists (for_range (standard_results m) (fun kv => [Csv (fst kv); Csv ","])
          ++ [Call Q_parNameList]
          ++ for_range (parNameList results)
               (fun par_name =>
                  if contains par_name "::" then []
                  else [Csv par_name; Csv ","; Csv par_name; Csv "_err,"])
          ++ for_range (production_coefficients m)
               (fun kv => [Csv (fst kv); Csv "_re"; Csv ",";
                           Csv (fst kv); Csv "_im"; Csv ","]))%list.
  exists (for_range (phase_diffs m)
            (fun kv => [Csv (fst kv); Csv ","; Csv (fst kv); Csv "_err,"])
          ++ [Csv newline])%list.
  unfold write_header. rewrite <- !app_assoc.
  do 4 f_equal. f_equal.
  unfold for_range, sum_columns, sum_entries.
  rewrite flat_map_map, flat_map_flat_map.
  apply flat_map_ext. intros sum_entry. now rewrite flat_map_map.
Qed.

Lemma values_sum_entries (results : FitResults D) (m : maps D) acc :
  exists before after,
    write_values show results m acc
    = (before
       ++ for_range (sum_entries (coherent_sums m))
            (fun entry =>
               [Call (Q_intensity (snd entry) acc);
                Csv (show (fst (intensity results (snd entry) acc)));
                Csv ",";
                Call (Q_intensity (snd entry) acc);
                Csv (show (snd (intensity results (snd entry) acc)));
                Csv ","])
       ++ after)%list.
Proof.
  exists (for_range (standard_results m)
            (fun kv => [Csv (show (snd kv)); Csv ","])
          ++ [Call Q_parNameList]
          ++ for_range (parNameList results)
               (fun par_name =>
                  if contains par_name "::" then []
                  else [Call (Q_parValue par_name);
                        Csv (show (parValue results par_name)); Csv ",";
                        Call (Q_parError par_name);
                        Csv (show (parError results par_name)); Csv ","])
          ++ for_range (production_coefficients m)
               (fun kv => [Csv (show (fst (snd kv))); Csv ",";
                           Csv (show (snd (snd kv))); Csv ","]))%list.
  exists (for_range (phase_diffs m)
            (fun kv =>
               let pd_pair := snd kv in
               [Call (Q_phaseDiff (fst pd_pair) (snd pd_pair));
                Csv (show (fst (phaseDiff results (fst pd_pair) (snd pd_pair))));
                Csv ",";
                Call (Q_phaseDiff (fst pd_pair) (snd pd_pair));
                Csv (show (snd (phaseDiff results (fst pd_pair) (snd pd_pair))));
                Csv ","])).
  unfold write_values. rewrite <- !app_assoc.
  do 4 f_equal. f_equal.
  unfold for_range, sum_entries.
  rewrite flat_map_flat_map.
  apply flat_map_ext. intros sum_entry. now rewrite flat_map_map.
Qed.

End ColumnOrder.

(** ** The batch *)

Section Batch.
Context {D : Type}.
Variable show : D -> string.
Variable open_results : string -> FitResults D.
Variable is_acceptance_corrected : bool.

Lemma tellp_zero evs : (tellp evs =? 0)%Z = String.eqb (csv_text evs) "".
Proof.
  unfold tellp, size. destruct (csv_text evs) as [|c text]; simpl; auto.
Qed.

Lemma append_empty a b : a ++ b = "" -> a = "" /\ b = "".
Proof. destruct a; simpl; [auto|discriminate]. Qed.

Lemma header_not_empty (results : FitResults D) (m : maps D) :
  csv_text (write_header results m) <> "".
Proof.
  unfold write_header. rewrite !csv_text_app. intros H.
  do 6 (apply append_empty in H as [_ H]). vm_compute in H. discriminate.
Qed.

(** After [fill_maps] the next clearing gives the first maps again. *)
Lemma clear_maps_filled (results : FitResults D) (m : maps D) :
  fill_maps results init_maps = ok m -> clear_maps m = init_maps.
Proof.
  intros Hrun.
  destruct (fill_maps_sums results init_maps m Hrun) as [_ Hok].
  destruct (Hok init_coherent_sums_ok) as [Hkeys _].
  unfold clear_maps, init_maps. f_equal.
  transitivity (map (fun k => (k, @SMap.empty (list string)))
                  (SMap.keys (coherent_sums m))).
  - unfold SMap.keys. now rewrite map_map.
  - rewrite Hkeys. reflexivity.
Qed.

(** The csv and the outcome of a run, from any point of it. *)
Lemma extract_files_csv files evs (m : maps D) :
  clear_maps m = init_maps ->
  csv_text (fst (extract_files show open_results is_acceptance_corrected
                   files evs m))
  = csv_text evs
    ++ (if String.eqb (csv_text evs) "" then expected_csv show open_results is_acceptance_corrected
           (completed open_results files)
        else rows_text show open_results is_acceptance_corrected
             (completed open_results files))
  /\ snd (extract_files show open_results is_acceptance_corrected files evs m)
     = outcome open_results files.
Proof.
  revert evs m. induction files as [|file rest IH]; intros evs m Hclear.
  - simpl. split; auto. destruct (String.eqb (csv_text evs) "");
      now rewrite append_nil_r.
  - cbn [extract_files completed outcome].
    destruct (negb (valid (open_results file))).
    + match goal with
      | |- context [extract_files _ _ _ rest ?evs1 m] =>
          destruct (IH evs1 m Hclear) as [Hcsv Hout]
      end.
      rewrite Hcsv, Hout. rewrite !csv_text_app. simpl.
      rewrite !append_nil_r. auto.
    + rewrite Hclear.
      assert (Hevs : csv_text
                       ((evs ++ [Cout ("Analyzing File: " ++ file ++ newline)])
                          ++ [Call Q_valid])%list = csv_text evs)
        by (rewrite !csv_text_app; simpl; now rewrite !append_nil_r).
      unfold header_text, row_text, filled.
      destruct (fill_maps (open_results file) init_maps) as [e|m1] eqn:Hfill.
      * cbn [fst snd returns]. rewrite Hevs. split; auto.
        destruct (String.eqb (csv_text evs) ""); now rewrite append_nil_r.
      * cbn [returns].
        rewrite tellp_zero, Hevs.
        pose proof (clear_maps_filled _ _ Hfill) as Hclear1.
        set (header := write_header (open_results file) m1).
        set (row := write_values show (open_results file) m1
                      is_acceptance_corrected).
        assert (Hne : csv_text header <> "") by apply header_not_empty.
        destruct (String.eqb_spec (csv_text evs) "") as [Hempty|Hfull].
        -- match goal with
           | |- context [extract_files _ _ _ rest ?evs3 m1] =>
               destruct (IH evs3 m1 Hclear1) as [Hcsv Hout];
               rewrite Hcsv, Hout; split; auto
           end.
           rewrite (csv_text_app _ row), (csv_text_app _ header), Hevs, Hempty.
           cbn [append expected_csv rows_text].
           destruct (String.eqb_spec (csv_text header ++ csv_text row) "")
             as [E|_].
           ++ apply append_empty in E as [E _]. contradiction.
           ++ unfold header_text, row_text, filled. rewrite Hfill.
              now rewrite append_assoc.
        -- match goal with
           | |- context [extract_files _ _ _ rest ?evs3 m1] =>
               destruct (IH evs3 m1 Hclear1) as [Hcsv Hout];
               rewrite Hcsv, Hout; split; auto
           end.
           rewrite (csv_text_app _ row), Hevs.
           cbn [rows_text].
           destruct (String.eqb_spec (csv_text evs ++ csv_text row) "")
             as [E|_].
           ++ apply append_empty in E as [E _]. contradiction.
           ++ unfold row_text, filled. rewrite Hfill.
              now rewrite append_assoc.
Qed.

Lemma completed_valid files file :
  In file (completed open_results files) -> valid (open_results file) = true.
Proof.
  induction files as [|f rest IH]; simpl; [tauto|].
  destruct (valid (open_results f)) eqn:Hv; simpl; auto.
  destruct (returns _); simpl; [|tauto].
  intros [<-|H]; auto.
Qed.

Lemma completed_skip before file after :
  valid (open_results file) = false ->
  completed open_results (before ++ file :: after)
  = completed open_results (before ++ after)
  /\ outcome open_results (before ++ file :: after)
   = outcome open_results (before ++ after).
Proof.
  intros Hv. induction before as [|f before [IH1 IH2]]; simpl.
  - now rewrite Hv.
  - rewrite IH1, IH2. auto.
Qed.

End Batch.

(** * Properties *)

(** ** The coherent sum builder *)

(** C1, as stated, fails on two fits.  On [short_fit] the segment ["p1"] is
    too short, [fill_maps] throws and no group is filled.  On [reserved_fit]
    the reserved group is filed under the label ["Bkgd"], whose first
    character is the reflectivity key ["B"] of the other amplitude, and the
    background amplitude is not in that sum. *)
Lemma coherent_sums_claim_fails :
  ~ places_in_seven_groups short_fit /\ ~ union_of_finest_groups reserved_fit.
Proof.
  split.
  - intros (m' & H & _). vm_compute in H. discriminate.
  - intros H.
    destruct (fill_maps reserved_fit init_maps) as [ex|m'] eqn:E;
      [vm_compute in E; discriminate|].
    specialize (H m' E "e" "B" "R::S::Bkgd").
    vm_compute in E. injection E as <-.
    assert (Hin : In "R::S::Bkgd" ["R::S::B1p0S"]).
    { apply H.
      - simpl. tauto.
      - discriminate.
      - exists "Bkgd". split; [reflexivity|]. vm_compute. tauto. }
    simpl in Hin. destruct Hin as [Hin|[]]. discriminate.
Qed.

(** C1, amended.  When every amplitude without the marker has a trailing
    segment of at least four characters, [fill_maps] returns; each such
    amplitude is then in exactly seven groups, one per type, under the key
    made of the fields the type keeps; and every group of a coarser type is
    the union of the parsed groups of type [eJPmL] (all but the reserved
    ["Bkgd"] group) whose labels map to its key. *)
Theorem coherent_sums_grouping {D} (results : FitResults D) :
  (forall a, In a (all_amplitudes results) ->
             is_background a = false -> well_formed a = true) ->
  exists m',
    fill_maps results init_maps = ok m'
    /\ (forall a,
           In a (all_amplitudes results) -> is_background a = false ->
           exists e JP m L,
             parse_amplitude a = ok (e, JP, m, L)
             /\ groups_holding a (coherent_sums m')
                = [("JP", JP); ("JPL", JP ++ L); ("JPmL", JP ++ m ++ L);
                   ("e", e); ("eJP", e ++ JP); ("eJPL", e ++ JP ++ L);
                   ("eJPmL", e ++ JP ++ m ++ L)])
    /\ (forall type key a,
           In type coherent_sum_types -> type <> "eJPmL" ->
           In a (group (coherent_sums m') type key)
           <-> exists label,
               label <> "Bkgd" /\ coarser_key type label = Some key
               /\ In a (group (coherent_sums m') "eJPmL" label)).
Proof.
  intros Hwf.
  destruct (fill_maps_returns results init_maps Hwf) as (m' & Hrun).
  exists m'. split; [exact Hrun|].
  destruct (fill_maps_sums results init_maps m' Hrun) as [Hg Hok].
  specialize (Hok init_coherent_sums_ok).
  assert (Hg' : forall type key,
             group (coherent_sums m') type key
             = filter (fun a => placed a type key) (all_amplitudes results)).
  { intros type key. rewrite Hg. cbn [coherent_sums init_maps].
    now rewrite group_init. }
  split.
  - intros a Hin Hbg.
    destruct (well_formed_parse a (Hwf a Hin Hbg)) as (e & JP & m & L & Hparse).
    exists e, JP, m, L. split; auto.
    now apply (groups_holding_parsed _ (all_amplitudes results)).
  - intros type key a _ Htype.
    now apply (coarser_group_union _ (all_amplitudes results)).
Qed.

Lemma coherent_sums_grouping_witness :
  exists m',
    fill_maps scenario init_maps = ok m'
    /\ (forall a,
           In a (all_amplitudes scenario) -> is_background a = false ->
           exists e JP m L,
             parse_amplitude a = ok (e, JP, m, L)
             /\ groups_holding a (coherent_sums m')
                = [("JP", JP); ("JPL", JP ++ L); ("JPmL", JP ++ m ++ L);
                   ("e", e); ("eJP", e ++ JP); ("eJPL", e ++ JP ++ L);
                   ("eJPmL", e ++ JP ++ m ++ L)])
    /\ (forall type key a,
           In type coherent_sum_types -> type <> "eJPmL" ->
           In a (group (coherent_sums m') type key)
           <-> exists label,
               label <> "Bkgd" /\ coarser_key type label = Some key
               /\ In a (group (coherent_sums m') "eJPmL" label)).
Proof.
  apply (coherent_sums_grouping scenario).
  intros a Ha _. vm_compute in Ha.
  destruct Ha as [<-|[<-|[<-|[]]]]; reflexivity.
Defined.

(** ** The phase difference selector *)

(** C2, as stated, fails on two fits.  In [underscore_fit] the key of
    ["pxxx"] and ["pyyy_pzzz"] reads like the swapped key of ["pzzz"] and
    ["pxxx_pyyy"], and both keys of that pair are in the map.  In
    [same_label_fit] two amplitudes share the segment; the two keys are one
    key, and with it in the map both are. *)
Lemma exactly_one_key_fails :
  ~ exactly_one_key underscore_fit /\ ~ exactly_one_key same_label_fit.
Proof.
  split; intros H.
  - specialize (H _ "R" "R::S::pzzz" "R::S::pxxx_pyyy" "pzzz" "pxxx_pyyy"
                  eq_refl).
    vm_compute in H.
    assert (E : true = false); [|discriminate E].
    apply H; auto 6; discriminate.
  - specialize (H _ "R" "R::ImagPosSign::p1p0S" "R::RealNegSign::p1p0S"
                  "p1p0S" "p1p0S" eq_refl).
    vm_compute in H.
    assert (E : true = false); [|discriminate E].
    apply H; auto; discriminate.
Qed.

(** C2, amended.  Take two different amplitudes of one reaction, without
    the marker and of equal reflectivity.  At least one of the two keys of
    the pair is in the map [fill_maps] returns (when the trailing segments
    are the same, the two keys are one key).  When the segments differ and
    hold no underscore, exactly one of the two keys is in the map, never
    both, and it is the key in the order in which the two segments first
    meet in the inner loop: if a visit of an amplitude with the first
    segment and a partner with the second comes before every visit in the
    other order, the key that starts with the first segment is the one in
    the map. *)
Theorem phase_diff_pair_once {D} (results : FitResults D) (m' : maps D)
    (reaction A B sa sb : string) :
  fill_maps results init_maps = ok m' ->
  In reaction (reactionList results) ->
  In A (ampList results reaction) -> In B (ampList results reaction) ->
  A <> B -> is_background A = false -> is_background B = false ->
  trailing A = ok sa -> trailing B = ok sb -> front sa = front sb ->
  (SMap.mem (pair_key sa sb) (phase_diffs m') = true
   \/ SMap.mem (pair_key sb sa) (phase_diffs m') = true)
  /\ (sa <> sb -> no_underscore sa = true -> no_underscore sb = true ->
      SMap.mem (pair_key sa sb) (phase_diffs m')
      = negb (SMap.mem (pair_key sb sa) (phase_diffs m'))
      /\ (forall before X Y after,
             visits results = (before ++ (X, Y) :: after)%list ->
             trailing X = ok sa -> trailing Y = ok sb ->
             is_background Y = false ->
             (forall X' Y',
                 In (X', Y') before ->
                 ~ (trailing X' = ok sb /\ trailing Y' = ok sa
                    /\ is_background Y' = false)) ->
             SMap.mem (pair_key sa sb) (phase_diffs m') = true)).
Proof.
  intros Hrun Hr HA HB HAB HbgA HbgB Hta Htb Hf.
  apply fill_maps_visits in Hrun. cbn [phase_diffs init_maps] in Hrun.
  set (pd := phase_diffs m') in *.
  assert (Hleast : SMap.mem (pair_key sa sb) pd = true
                   \/ SMap.mem (pair_key sb sa) pd = true).
  { assert (Hin : In (A, B) (visits results)) by (apply in_visits; eauto 6).
    apply in_split in Hin as (l1 & l2 & Hsplit). rewrite Hsplit in Hrun.
    apply for_each_split in Hrun as (pd1 & pd2 & _ & Hstep & Hrest).
    apply (visit_step_registers A B sa sb) in Hstep as [[H1 ->]|[_ H1]]; auto.
    - right. eapply visits_grow; eauto.
    - left. eapply visits_grow; eauto. }
  split; [exact Hleast|].
  intros Hne Hsa Hsb.
  assert (Hmost : ~ (SMap.mem (pair_key sa sb) pd = true
                     /\ SMap.mem (pair_key sb sa) pd = true)).
  { apply (for_each_preserves visit_step
             (fun pd => ~ (SMap.mem (pair_key sa sb) pd = true
                           /\ SMap.mem (pair_key sb sa) pd = true))
             (visits results) SMap.empty pd); auto.
    - intros [H _]. discriminate.
    - intros v pd1 pd2 _ Hinv Hstep.
      now apply (visit_step_one_key sa sb v pd1 pd2). }
  split.
  - destruct (SMap.mem (pair_key sa sb) pd) eqn:E1,
      (SMap.mem (pair_key sb sa) pd) eqn:E2; simpl; auto.
    + exfalso. auto.
    + destruct Hleast; discriminate.
  - intros before X Y after Hsplit HX HY HbgY Hfirst.
    rewrite Hsplit in Hrun.
    apply for_each_split in Hrun as (pd1 & pd2 & Hbefore & Hstep & Hrest).
    assert (Hnone : SMap.mem (pair_key sb sa) pd1 = false).
    { assert (G : forall l pd0,
                 (forall X' Y', In (X', Y') l -> In (X', Y') before) ->
                 SMap.mem (pair_key sb sa) pd0 = false ->
                 for_each visit_step l pd0 = ok pd1 ->
                 SMap.mem (pair_key sb sa) pd1 = false).
      { induction l as [|[X' Y'] l IH]; intros pd0 Hsub Hmem Hl;
          simpl in Hl.
        - apply ok_inj in Hl. now subst.
        - apply rbind_inv in Hl as (pd0' & Hone & Hl).
          apply (IH pd0'); auto.
          + intros X0 Y0 H0. apply Hsub. now right.
          + apply (visit_step_other_key sa sb X' Y' pd0); auto.
            apply Hfirst, Hsub. now left. }
      apply (G before SMap.empty); auto. }
    assert (HXY : Y <> X) by (intros ->; apply Hne; same_result).
    apply (visit_step_registers X Y sa sb) in Hstep as [[H1 _]|[_ H1]]; auto.
    + congruence.
    + eapply visits_grow; eauto.
Qed.

Lemma phase_diff_pair_once_witness :
  exists m',
    fill_maps scenario init_maps = ok m'
    /\ (SMap.mem (pair_key "p1p0S" "p1ppD") (phase_diffs m') = true
        \/ SMap.mem (pair_key "p1ppD" "p1p0S") (phase_diffs m') = true)
    /\ SMap.mem (pair_key "p1p0S" "p1ppD") (phase_diffs m')
       = negb (SMap.mem (pair_key "p1ppD" "p1p0S") (phase_diffs m'))
    /\ SMap.mem (pair_key "p1p0S" "p1ppD") (phase_diffs m') = true.
Proof.
  exists (filled scenario). split; [reflexivity|].
  destruct (phase_diff_pair_once scenario (filled scenario) "R1"
              "R1::S::p1p0S" "R1::S::p1ppD" "p1p0S" "p1ppD")
    as [Hleast Hone].
  - reflexivity.
  - simpl. tauto.
  - simpl. tauto.
  - simpl. tauto.
  - discriminate.
  - reflexivity.
  - reflexivity.
  - reflexivity.
  - reflexivity.
  - reflexivity.
  - split; [exact Hleast|].
    destruct Hone as [Hone Horder]; [discriminate|reflexivity|reflexivity|].
    split; [exact Hone|].
    apply (Horder
             [("R1::S::p1p0S", "R1::S::p1p0S"); ("R1::S::p1p0S", "R1::S::m1p0S")]
             "R1::S::p1p0S" "R1::S::p1ppD"
             [("R1::S::m1p0S", "R1::S::p1p0S"); ("R1::S::m1p0S", "R1::S::m1p0S");
              ("R1::S::m1p0S", "R1::S::p1ppD"); ("R1::S::p1ppD", "R1::S::p1p0S");
              ("R1::S::p1ppD", "R1::S::m1p0S"); ("R1::S::p1ppD", "R1::S::p1ppD")]).
    + reflexivity.
    + reflexivity.
    + reflexivity.
    + reflexivity.
    + intros X' Y' Hin (Ht & _). simpl in Hin.
      destruct Hin as [E|[E|[]]]; injection E as <- <-; discriminate Ht.
Defined.

(** Two amplitudes with one segment: the one key of the pair is in the
    map. *)
Example same_label_key :
  SMap.mem (pair_key "p1p0S" "p1p0S") (phase_diffs (filled same_label_fit))
  = true.
Proof. reflexivity. Qed.

(** In the scenario of the spec the pair is first met as [p1p0S] then
    [p1ppD], and that is the key in the map. *)
Example scenario_phase_diffs :
  fill_maps scenario init_maps = ok
    {| standard_results :=
         [("detected_events", 100%Z); ("detected_events_err", 10%Z);
          ("eMatrixStatus", 3%Z); ("generated_events", 200%Z);
          ("generated_events_err", 20%Z); ("lastMinuitCommandStatus", 0%Z);
          ("likelihood", (-1000)%Z)];
       production_coefficients :=
         [("m1p0S", (12%Z, 0%Z)); ("p1p0S", (12%Z, 0%Z));
          ("p1ppD", (12%Z, 0%Z))];
       coherent_sums :=
         [("JP", [("1p", ["R1::S::p1p0S"; "R1::S::m1p0S"; "R1::S::p1ppD"])]);
          ("JPL", [("1pD", ["R1::S::p1ppD"]);
                   ("1pS", ["R1::S::p1p0S"; "R1::S::m1p0S"])]);
          ("JPmL", [("1p0S", ["R1::S::p1p0S"; "R1::S::m1p0S"]);
                    ("1ppD", ["R1::S::p1ppD"])]);
          ("e", [("m", ["R1::S::m1p0S"]);
                 ("p", ["R1::S::p1p0S"; "R1::S::p1ppD"])]);
          ("eJP", [("m1p", ["R1::S::m1p0S"]);
                   ("p1p", ["R1::S::p1p0S"; "R1::S::p1ppD"])]);
          ("eJPL", [("m1pS", ["R1::S::m1p0S"]); ("p1pD", ["R1::S::p1ppD"]);
                    ("p1pS", ["R1::S::p1p0S"])]);
          ("eJPmL", [("m1p0S", ["R1::S::m1p0S"]); ("p1p0S", ["R1::S::p1p0S"]);
                     ("p1ppD", ["R1::S::p1ppD"])])];
       phase_diffs := [("p1p0S_p1ppD", ("R1::S::p1p0S", "R1::S::p1ppD"))] |}.
Proof. reflexivity. Qed.

(** C3.  For two amplitudes whose trailing segments start with different
    characters: the inner loop registers nothing when it meets the pair, in
    either order and whatever the map holds; no entry of the map
    [fill_maps] returns is the pair in either order; and, the segments being
    free of underscores, neither key of the pair is in that map. *)
Theorem no_phase_diff_across_reflectivities {D} (results : FitResults D)
    (m' : maps D) (A B sa sb : string) :
  fill_maps results init_maps = ok m' ->
  trailing A = ok sa -> trailing B = ok sb -> front sa <> front sb ->
  (forall pd pd', visit_step (A, B) pd = ok pd' -> pd' = pd)
  /\ (forall pd pd', visit_step (B, A) pd = ok pd' -> pd' = pd)
  /\ (forall key,
         SMap.find key (phase_diffs m') <> Some (A, B)
         /\ SMap.find key (phase_diffs m') <> Some (B, A))
  /\ (no_underscore sa = true -> no_underscore sb = true ->
      SMap.mem (pair_key sa sb) (phase_diffs m') = false
      /\ SMap.mem (pair_key sb sa) (phase_diffs m') = false).
Proof.
  intros Hrun Ha Hb Hf.
  apply fill_maps_visits, visits_phase_ok in Hrun.
  assert (Hentry : forall key X Y sx sy,
             SMap.find key (phase_diffs m') = Some (X, Y) ->
             trailing X = ok sx -> trailing Y = ok sy -> front sx = front sy).
  { intros key X Y sx sy Hfind Hx Hy.
    apply Hrun in Hfind as (_ & _ & _ & s1 & s2 & H1 & H2 & _ & Hfront).
    cbn [fst snd] in *. same_result. }
  split; [|split; [|split]].
  - intros pd pd' H.
    apply visit_step_inv in H as (sa' & Ha' & _ & H).
    apply store_phase_diff_cases in H
        as [->|(sp & _ & _ & Hp & _ & Hfront & _)]; auto.
    exfalso. apply Hf. same_result.
  - intros pd pd' H.
    apply visit_step_inv in H as (sb' & Hb' & _ & H).
    apply store_phase_diff_cases in H
        as [->|(sp & _ & _ & Hp & _ & Hfront & _)]; auto.
    exfalso. apply Hf. same_result.
  - intros key. split; intros Hfind.
    + apply Hf. eapply Hentry; eauto.
    + apply Hf. symmetry. eapply Hentry; eauto.
  - intros Hsa Hsb.
    assert (Hkey : forall s1 s2,
               SMap.mem (pair_key s1 s2) (phase_diffs m') = true ->
               no_underscore s1 = true -> no_underscore s2 = true ->
               front s1 = front s2).
    { intros s1 s2 Hmem H1 H2.
      apply mem_find in Hmem as ([X Y] & Hfind).
      apply Hrun in Hfind as (_ & _ & _ & t1 & t2 & _ & _ & Hk & Hfront).
      symmetry in Hk. apply pair_key_inj in Hk as [-> ->]; auto. }
    split.
    + destruct (SMap.mem (pair_key sa sb) (phase_diffs m')) eqn:E; auto.
      exfalso. apply Hf. now apply Hkey.
    + destruct (SMap.mem (pair_key sb sa) (phase_diffs m')) eqn:E; auto.
      exfalso. apply Hf. symmetry. now apply Hkey.
Qed.

Lemma no_phase_diff_across_reflectivities_witness :
  exists m',
    fill_maps scenario init_maps = ok m'
    /\ (forall pd pd',
           visit_step ("R1::S::p1p0S", "R1::S::m1p0S") pd = ok pd' -> pd' = pd)
    /\ (forall pd pd',
           visit_step ("R1::S::m1p0S", "R1::S::p1p0S") pd = ok pd' -> pd' = pd)
    /\ (forall key,
           SMap.find key (phase_diffs m') <> Some ("R1::S::p1p0S", "R1::S::m1p0S")
           /\ SMap.find key (phase_diffs m')
              <> Some ("R1::S::m1p0S", "R1::S::p1p0S"))
    /\ SMap.mem (pair_key "p1p0S" "m1p0S") (phase_diffs m') = false
    /\ SMap.mem (pair_key "m1p0S" "p1p0S") (phase_diffs m') = false.
Proof.
  exists (filled scenario). split; [reflexivity|].
  destruct (no_phase_diff_across_reflectivities scenario (filled scenario)
              "R1::S::p1p0S" "R1::S::m1p0S" "p1p0S" "m1p0S")
    as (Hvisit & Hback & Hentry & Hkeys).
  - reflexivity.
  - reflexivity.
  - reflexivity.
  - discriminate.
  - split; [exact Hvisit|]. split; [exact Hback|]. split; [exact Hentry|].
    apply Hkeys; reflexivity.
Defined.

(** ** The name parser *)

(** C4.  For an identifier [R::S::eJPmL] whose trailing segment has at least
    four characters, [parse_amplitude] returns four fields of widths 1, 2, 1
    and the rest, and the fields put together in that order are the trailing
    segment. *)
Theorem parse_amplitude_roundtrip (R S eJPmL : string) :
  contains (":" ++ eJPmL) "::" = false ->
  (size (R ++ "::" ++ S ++ "::" ++ eJPmL) <= npos)%Z ->
  4 <= String.length eJPmL ->
  exists e JP m L,
    parse_amplitude (R ++ "::" ++ S ++ "::" ++ eJPmL) = ok (e, JP, m, L)
    /\ String.length e = 1 /\ String.length JP = 2 /\ String.length m = 1
    /\ String.length L = String.length eJPmL - 4
    /\ (e ++ JP ++ m ++ L)%string = eJPmL.
Proof.
  intros Hlast Hsize Hlen.
  assert (Ht : trailing (R ++ "::" ++ S ++ "::" ++ eJPmL) = ok eJPmL).
  { apply trailing_of_segment; auto.
    exists (R ++ "::" ++ S)%string. split; auto.
    now rewrite !append_assoc. }
  exists (take 1 eJPmL), (take 2 (drop 1 eJPmL)), (take 1 (drop 3 eJPmL)),
    (drop 4 eJPmL).
  split; [now apply parse_amplitude_fields|].
  rewrite !length_take, !length_drop.
  repeat split; try lia.
  apply fields_append; lia.
Qed.

Lemma parse_amplitude_roundtrip_witness :
  exists e JP m L,
    parse_amplitude ("R1" ++ "::" ++ "S" ++ "::" ++ "p1p0S") = ok (e, JP, m, L)
    /\ String.length e = 1 /\ String.length JP = 2 /\ String.length m = 1
    /\ String.length L = String.length "p1p0S" - 4
    /\ (e ++ JP ++ m ++ L)%string = "p1p0S".
Proof.
  apply (parse_amplitude_roundtrip "R1" "S" "p1p0S").
  - reflexivity.
  - vm_compute. discriminate.
  - simpl. lia.
Defined.

(** ** The csv *)

(** C5, as stated, fails on the scenario of the spec: [p1p0S] is met before
    [m1p0S], and the column of [m1p0S] comes first. *)
Lemma first_seen_order_fails : ~ first_seen_order scenario.
Proof.
  intros H. specialize (H "eJPmL"). vm_compute in H.
  assert (E : ["m1p0S"; "p1p0S"; "p1ppD"] = ["p1p0S"; "m1p0S"; "p1ppD"])
    by (apply H; auto).
  discriminate E.
Qed.

(** C5, amended.  The coherent sum columns, in the header and in every row,
    come in the order of the sorted maps: the types in ascending byte order
    ([JP], [JPL], [JPmL], [e], [eJP], [eJPL], [eJPmL]) and under each type
    the group keys in strictly ascending byte order.  The keys are those
    the amplitudes were placed under, so the order depends on which
    amplitudes the fit has and not on the order they come in. *)
Theorem sum_columns_in_key_order {D} (show : D -> string)
    (results : FitResults D) (m' : maps D) (acc : bool) :
  fill_maps results init_maps = ok m' ->
  sum_columns (coherent_sums m')
  = flat_map
      (fun type => SMap.keys (SMap.at_key SMap.empty type (coherent_sums m')))
      sorted_types
  /\ (forall type,
         StronglySorted String_as_OT.lt
           (SMap.keys (SMap.at_key SMap.empty type (coherent_sums m'))))
  /\ (forall type key,
         In key (SMap.keys (SMap.at_key SMap.empty type (coherent_sums m')))
         <-> exists a, In a (all_amplitudes results) /\ placed a type key = true)
  /\ (forall (other : FitResults D) (m2 : maps D),
         fill_maps other init_maps = ok m2 ->
         (forall a, In a (all_amplitudes results) <-> In a (all_amplitudes other)) ->
         sum_columns (coherent_sums m2) = sum_columns (coherent_sums m'))
  /\ (exists before after,
         write_header results m'
         = (before
            ++ for_range (sum_columns (coherent_sums m'))
                 (fun key => [Csv key; Csv ","; Csv key; Csv "_err,"])
            ++ after)%list)
  /\ (exists before after,
         write_values show results m' acc
         = (before
            ++ for_range (sum_entries (coherent_sums m'))
                 (fun entry =>
                    [Call (Q_intensity (snd entry) acc);
                     Csv (show (fst (intensity results (snd entry) acc)));
                     Csv ",";
                     Call (Q_intensity (snd entry) acc);
                     Csv (show (snd (intensity results (snd entry) acc)));
                     Csv ","])
            ++ after)%list).
Proof.
  intros Hrun.
  assert (Hkeys : forall (r : FitResults D) (mr : maps D),
             fill_maps r init_maps = ok mr ->
             forall type key,
               In key (SMap.keys (SMap.at_key SMap.empty type (coherent_sums mr)))
               <-> exists a, In a (all_amplitudes r) /\ placed a type key = true).
  { intros r mr Hr type key. rewrite (fill_maps_keys r init_maps mr type key Hr).
    cbn [coherent_sums init_maps]. split; [|auto].
    intros [H|H]; auto. exfalso. revert H.
    unfold SMap.at_key.
    destruct (SMap.find type init_coherent_sums) as [sums|] eqn:E; [|tauto].
    apply find_In in E. simpl in E.
    repeat (destruct E as [[= <- <-]|E]; [tauto|]). contradiction. }
  assert (Hok : forall (r : FitResults D) (mr : maps D),
             fill_maps r init_maps = ok mr -> sums_ok (coherent_sums mr)).
  { intros r mr Hr. apply (fill_maps_sums r init_maps mr Hr).
    apply init_coherent_sums_ok. }
  split; [|split; [|split; [|split; [|split]]]].
  - apply sum_columns_by_type. eauto.
  - intros type. apply (Hok results m' Hrun).
  - apply Hkeys. exact Hrun.
  - intros other m2 Hother Hsame.
    rewrite !sum_columns_by_type by eauto.
    apply flat_map_ext. intros type.
    apply sorted_keys_unique.
    + apply (Hok other m2 Hother).
    + apply (Hok results m' Hrun).
    + intros key. rewrite (Hkeys other m2 Hother), (Hkeys results m' Hrun).
      split; intros (a & Ha & Hpl); exists a; split; auto; now apply Hsame.
  - apply header_sum_columns.
  - apply values_sum_entries.
Qed.

Lemma sum_columns_in_key_order_witness :
  sum_columns (coherent_sums (filled scenario))
  = ["1p"; "1pD"; "1pS"; "1p0S"; "1ppD"; "m"; "p"; "m1p"; "p1p";
     "m1pS"; "p1pD"; "p1pS"; "m1p0S"; "p1p0S"; "p1ppD"]
  /\ sum_columns (coherent_sums (filled reordered_scenario))
     = sum_columns (coherent_sums (filled scenario)).
Proof.
  destruct (sum_columns_in_key_order show_Z scenario (filled scenario) true)
    as (Hcolumns & _ & _ & Hsame & _).
  - reflexivity.
  - split.
    + rewrite Hcolumns. reflexivity.
    + apply (Hsame reordered_scenario (filled reordered_scenario)).
      * reflexivity.
      * intros a. simpl. tauto.
Defined.



Example row_queries_scenario :
  filter is_phaseDiff_call
    (calls (write_values show_Z scenario (filled scenario) true))
  = [Q_phaseDiff "R1::S::p1p0S" "R1::S::p1ppD";
     Q_phaseDiff "R1::S::p1p0S" "R1::S::p1ppD"].
Proof. reflexivity. Qed.

(** ** Isotropic background *)

(** C7.  For an amplitude with the marker the loop body does one thing: it
    appends the name, without parsing it, to the group ["Bkgd"] of type
    [eJPmL]; as a partner in the inner loop it is passed over.  So after
    [fill_maps] that group holds the amplitudes with the marker in the
    order of the lists, such an amplitude is in no other group of any type,
    and it is on neither side of any entry of the phase difference map. *)
Theorem background_only_in_reserved_group {D} (results : FitResults D)
    (m' : maps D) (amplitude : string) :
  fill_maps results init_maps = ok m' ->
  is_background amplitude = true ->
  In amplitude (all_amplitudes results) ->
  (forall reaction (m : maps D),
      store_amplitude results reaction amplitude m
      = ok {| standard_results := standard_results m;
              production_coefficients := production_coefficients m;
              coherent_sums :=
                push_sum "eJPmL" "Bkgd" amplitude (coherent_sums m);
              phase_diffs := phase_diffs m |})
  /\ (forall other eJPmL pd, store_phase_diff other eJPmL amplitude pd = ok pd)
  /\ In amplitude (group (coherent_sums m') "eJPmL" "Bkgd")
  /\ group (coherent_sums m') "eJPmL" "Bkgd"
     = filter is_background (all_amplitudes results)
  /\ (forall type key,
         In amplitude (group (coherent_sums m') type key) ->
         type = "eJPmL" /\ key = "Bkgd")
  /\ (forall key pd_pair,
         SMap.find key (phase_diffs m') = Some pd_pair ->
         fst pd_pair <> amplitude /\ snd pd_pair <> amplitude).
Proof.
  intros Hrun Hbg Hin.
  destruct (background_routing results m' amplitude Hrun Hbg) as (Hg & Hs & Hp).
  split; [|split; [|split; [|split; [exact Hg|split; [exact Hs|exact Hp]]]]].
  - intros reaction m. unfold store_amplitude. now rewrite Hbg.
  - intros other eJPmL pd. unfold store_phase_diff. rewrite Hbg.
    now destruct (String.eqb amplitude other).
  - rewrite Hg. apply filter_In. auto.
Qed.

Lemma background_only_in_reserved_group_witness :
  exists m',
    fill_maps background_fit init_maps = ok m'
    /\ (forall reaction (m : maps Z),
           store_amplitude background_fit reaction "R::S::iso" m
           = ok {| standard_results := standard_results m;
                   production_coefficients := production_coefficients m;
                   coherent_sums :=
                     push_sum "eJPmL" "Bkgd" "R::S::iso" (coherent_sums m);
                   phase_diffs := phase_diffs m |})
    /\ (forall other eJPmL pd,
           store_phase_diff other eJPmL "R::S::iso" pd = ok pd)
    /\ In "R::S::iso" (group (coherent_sums m') "eJPmL" "Bkgd")
    /\ group (coherent_sums m') "eJPmL" "Bkgd"
       = filter is_background (all_amplitudes background_fit)
    /\ (forall type key,
           In "R::S::iso" (group (coherent_sums m') type key) ->
           type = "eJPmL" /\ key = "Bkgd")
    /\ (forall key pd_pair,
           SMap.find key (phase_diffs m') = Some pd_pair ->
           fst pd_pair <> "R::S::iso" /\ snd pd_pair <> "R::S::iso").
Proof.
  exists (filled background_fit). split; [reflexivity|].
  apply (background_only_in_reserved_group background_fit
           (filled background_fit) "R::S::iso").
  - reflexivity.
  - reflexivity.
  - simpl. tauto.
Defined.

(** The segment ["iso"] is too short to parse; it is stored all the same. *)
Example background_is_not_parsed :
  returns (parse_amplitude "R::S::iso") = false
  /\ returns (fill_maps background_fit init_maps) = true.
Proof. split; reflexivity. Qed.

(** ** The batch driver *)

(** C8.  A file whose handle is not valid gets only the two console lines:
    nothing is written to the csv for it, the maps are left as they are and
    the loop goes on with the next file.  The csv and the outcome of the run
    are those of the run without the file.  The csv holds the header of the
    first file that was processed to the end and one row for each such file,
    and the invalid file is none of them. *)
Theorem invalid_file_is_skipped {D} (show : D -> string)
    (open_results : string -> FitResults D) (acc : bool)
    (before : list string) (file : string) (after : list string) :
  valid (open_results file) = false ->
  (forall rest evs m,
      extract_files show open_results acc (file :: rest) evs m
      = extract_files show open_results acc rest
          (evs ++ [Cout ("Analyzing File: " ++ file ++ newline);
                   Call Q_valid;
                   Cout ("Invalid fit results in file: " ++ file ++ newline)])%list
          m)
  /\ csv_text (fst (extract_files show open_results acc
                     (before ++ file :: after) [] init_maps))
     = csv_text (fst (extract_files show open_results acc
                        (before ++ after) [] init_maps))
  /\ snd (extract_files show open_results acc
            (before ++ file :: after) [] init_maps)
     = snd (extract_files show open_results acc (before ++ after) [] init_maps)
  /\ csv_text (fst (extract_files show open_results acc
                     (before ++ file :: after) [] init_maps))
     = expected_csv show open_results acc
         (completed open_results (before ++ file :: after))
  /\ ~ In file (completed open_results (before ++ file :: after)).
Proof.
  intros Hv.
  destruct (completed_skip open_results before file after Hv) as [Hc Ho].
  destruct (extract_files_csv show open_results acc (before ++ file :: after)
              [] init_maps eq_refl) as [Hcsv Hout].
  destruct (extract_files_csv show open_results acc (before ++ after)
              [] init_maps eq_refl) as [Hcsv' Hout'].
  simpl in Hcsv, Hcsv'.
  split; [|split; [|split; [|split]]].
  - intros rest evs m. cbn [extract_files]. rewrite Hv. cbn [negb].
    now rewrite <- !app_assoc.
  - now rewrite Hcsv, Hcsv', Hc.
  - now rewrite Hout, Hout', Ho.
  - exact Hcsv.
  - intros Hin. apply completed_valid in Hin. congruence.
Qed.

Lemma invalid_file_is_skipped_witness :
  csv_text (fst (extract_files show_Z sample_files true
                   ([] ++ "bad.fit" :: ["good.fit"]) [] init_maps))
  = csv_text (fst (extract_files show_Z sample_files true
                     ([] ++ ["good.fit"]) [] init_maps))
  /\ snd (extract_files show_Z sample_files true
            ([] ++ "bad.fit" :: ["good.fit"]) [] init_maps)
     = snd (extract_files show_Z sample_files true
              ([] ++ ["good.fit"]) [] init_maps)
  /\ csv_text (fst (extract_files show_Z sample_files true
                     ([] ++ "bad.fit" :: ["good.fit"]) [] init_maps))
     = expected_csv show_Z sample_files true
         (completed sample_files ([] ++ "bad.fit" :: ["good.fit"]))
  /\ ~ In "bad.fit" (completed sample_files ([] ++ "bad.fit" :: ["good.fit"])).
Proof.
  apply (invalid_file_is_skipped show_Z sample_files true
           [] "bad.fit" ["good.fit"]).
  reflexivity.
Defined.

(** Two invalid files around a valid one: the header is that of the valid
    file, and there is one row. *)
Example batch_with_invalid_files :
  extract_fit_results show_Z sample_files true "bad.fit good.fit  other.fit"
  = extract_files show_Z sample_files true
      ["bad.fit"; "good.fit"; "other.fit"] [] init_maps
  /\ csv_text (fst (extract_fit_results show_Z sample_files true
                     "bad.fit good.fit  other.fit"))
     = header_text sample_files "good.fit"
       ++ row_text show_Z sample_files true "good.fit"
  /\ snd (extract_fit_results show_Z sample_files true
            "bad.fit good.fit  other.fit") = None.
Proof. repeat split. Qed.

(** ** The name parser, on short names *)

(** C9.  [parse_amplitude] does not return on every identifier: when the
    trailing segment has fewer than four characters it throws
    [std::out_of_range] from the first extraction that starts beyond the end
    of the segment (the orbital-L extraction at position 4 always does); on a
    segment of exactly four characters it returns, with an empty L. *)
Theorem parse_amplitude_short_segment (amplitude seg : string) :
  trailing_segment amplitude seg ->
  (size amplitude <= npos)%Z ->
  (String.length seg < 4 ->
   exists pos,
     parse_amplitude amplitude = throw (std_out_of_range pos (size seg))
     /\ (size seg < pos <= 4)%Z
     /\ substr_from seg 4 = throw (std_out_of_range 4 (size seg)))
  /\ (String.length seg = 4 ->
      exists e JP m, parse_amplitude amplitude = ok (e, JP, m, "")).
Proof.
  intros Hseg Hsize.
  pose proof (trailing_of_segment _ _ Hseg Hsize) as Ht.
  split; intros Hlen.
  - rewrite (parse_amplitude_trailing _ _ Ht).
    destruct seg as [|c1 [|c2 [|c3 [|c4 seg]]]]; simpl in Hlen; try lia.
    + exists 1%Z. repeat split; try reflexivity; vm_compute; congruence.
    + exists 3%Z. repeat split; try reflexivity; vm_compute; congruence.
    + exists 3%Z. repeat split; try reflexivity; vm_compute; congruence.
    + exists 4%Z. repeat split; try reflexivity; vm_compute; congruence.
  - rewrite (parse_amplitude_fields _ _ Ht) by lia.
    destruct seg as [|c1 [|c2 [|c3 [|c4 [|c5 seg]]]]]; simpl in Hlen; try lia.
    simpl. eauto.
Qed.

Lemma parse_amplitude_short_segment_witness :
  (exists pos,
     parse_amplitude "R1::S::p1p" = throw (std_out_of_range pos (size "p1p"))
     /\ (size "p1p" < pos <= 4)%Z
     /\ substr_from "p1p" 4 = throw (std_out_of_range 4 (size "p1p")))
  /\ (exists e JP m, parse_amplitude "R1::S::p1p0" = ok (e, JP, m, "")).
Proof.
  split.
  - apply (parse_amplitude_short_segment "R1::S::p1p" "p1p").
    + exists "R1::S". split; reflexivity.
    + vm_compute. discriminate.
    + simpl. lia.
  - apply (parse_amplitude_short_segment "R1::S::p1p0" "p1p0").
    + exists "R1::S". split; reflexivity.
    + vm_compute. discriminate.
    + reflexivity.
Defined.

Example parse_amplitude_four : parse_amplitude "R1::S::p1p0" = ok ("p", "1p", "0", "").
Proof. reflexivity. Qed.

Example parse_amplitude_no_separator :
  parse_amplitude "xp1p0S" = ok ("p", "1p", "0", "S").
Proof. reflexivity. Qed.

(** ** The background test *)

(** C10.  The marker is looked for in the whole name: a name with ["Bkgd"]
    or ["iso"] anywhere in it, whatever stands before and after, passes the
    background test; the loop body files it in the reserved group and does
    nothing else with it, as a partner it is passed over, and after
    [fill_maps] it is in the reserved group only and in no phase difference
    pair.  No other name passes the test: a name is background exactly when
    it has a marker in it, and after [fill_maps] the reserved group holds
    the amplitudes with a marker and nothing else. *)
Theorem background_is_substring_test {D} (results : FitResults D)
    (m' : maps D) (front_part marker back_part : string) :
  marker = "Bkgd" \/ marker = "iso" ->
  is_background (front_part ++ marker ++ back_part) = true
  /\ (forall reaction (m : maps D),
         store_amplitude results reaction (front_part ++ marker ++ back_part) m
         = ok {| standard_results := standard_results m;
                 production_coefficients := production_coefficients m;
                 coherent_sums :=
                   push_sum "eJPmL" "Bkgd" (front_part ++ marker ++ back_part)
                     (coherent_sums m);
                 phase_diffs := phase_diffs m |})
  /\ (forall other eJPmL pd,
         store_phase_diff other eJPmL (front_part ++ marker ++ back_part) pd
         = ok pd)
  /\ (fill_maps results init_maps = ok m' ->
      In (front_part ++ marker ++ back_part) (all_amplitudes results) ->
      In (front_part ++ marker ++ back_part)
        (group (coherent_sums m') "eJPmL" "Bkgd")
      /\ (forall type key,
             In (front_part ++ marker ++ back_part)
               (group (coherent_sums m') type key) ->
             type = "eJPmL" /\ key = "Bkgd")
      /\ (forall key pd_pair,
             SMap.find key (phase_diffs m') = Some pd_pair ->
             fst pd_pair <> front_part ++ marker ++ back_part
             /\ snd pd_pair <> front_part ++ marker ++ back_part))
  /\ (forall amplitude,
         is_background amplitude = true
         <-> exists front_part' marker' back_part',
             (marker' = "Bkgd" \/ marker' = "iso")
             /\ amplitude = front_part' ++ marker' ++ back_part')
  /\ (fill_maps results init_maps = ok m' ->
      forall amplitude,
        In amplitude (group (coherent_sums m') "eJPmL" "Bkgd")
        <-> In amplitude (all_amplitudes results)
            /\ exists front_part' marker' back_part',
                (marker' = "Bkgd" \/ marker' = "iso")
                /\ amplitude = front_part' ++ marker' ++ back_part').
Proof.
  intros Hmarker.
  assert (Hbg : is_background (front_part ++ marker ++ back_part) = true).
  { unfold is_background. apply orb_true_iff.
    destruct Hmarker as [->| ->]; [left|right]; apply contains_marker. }
  split; [exact Hbg|]. split; [|split; [|split; [|split]]].
  - intros reaction m. unfold store_amplitude. now rewrite Hbg.
  - intros other eJPmL pd. unfold store_phase_diff. rewrite Hbg.
    now destruct (String.eqb (front_part ++ marker ++ back_part) other).
  - intros Hrun Hin.
    destruct (background_routing results m' _ Hrun Hbg) as (Hg & Hs & Hp).
    split; [|split; [exact Hs|exact Hp]].
    rewrite Hg. apply filter_In. auto.
  - apply is_background_iff.
  - intros Hrun amplitude.
    destruct (background_routing results m' _ Hrun Hbg) as (Hg & _).
    rewrite Hg, filter_In, is_background_iff. reflexivity.
Qed.

Lemma background_is_substring_test_witness :
  exists m',
    fill_maps background_fit init_maps = ok m'
    /\ is_background ("R::" ++ "iso" ++ "Sum::p1ppD") = true
    /\ (forall reaction (m : maps Z),
           store_amplitude background_fit reaction
             ("R::" ++ "iso" ++ "Sum::p1ppD") m
           = ok {| standard_results := standard_results m;
                   production_coefficients := production_coefficients m;
                   coherent_sums :=
                     push_sum "eJPmL" "Bkgd" ("R::" ++ "iso" ++ "Sum::p1ppD")
                       (coherent_sums m);
                   phase_diffs := phase_diffs m |})
    /\ (forall other eJPmL pd,
           store_phase_diff other eJPmL ("R::" ++ "iso" ++ "Sum::p1ppD") pd
           = ok pd)
    /\ In ("R::" ++ "iso" ++ "Sum::p1ppD")
         (group (coherent_sums m') "eJPmL" "Bkgd")
    /\ (forall type key,
           In ("R::" ++ "iso" ++ "Sum::p1ppD")
             (group (coherent_sums m') type key) ->
           type = "eJPmL" /\ key = "Bkgd")
    /\ (forall key pd_pair,
           SMap.find key (phase_diffs m') = Some pd_pair ->
           fst pd_pair <> "R::" ++ "iso" ++ "Sum::p1ppD"
           /\ snd pd_pair <> "R::" ++ "iso" ++ "Sum::p1ppD")
    /\ (forall amplitude,
           is_background amplitude = true
           <-> exists front_part marker back_part,
               (marker = "Bkgd" \/ marker = "iso")
               /\ amplitude = front_part ++ marker ++ back_part)
    /\ (forall amplitude,
           In amplitude (group (coherent_sums m') "eJPmL" "Bkgd")
           <-> In amplitude (all_amplitudes background_fit)
               /\ exists front_part marker back_part,
                   (marker = "Bkgd" \/ marker = "iso")
                   /\ amplitude = front_part ++ marker ++ back_part).
Proof.
  exists (filled background_fit). split; [reflexivity|].
  destruct (background_is_substring_test background_fit
              (filled background_fit) "R::" "iso" "Sum::p1ppD")
    as (Hbg & Hstore & Hpartner & Hrouted & Honly & Hgroup).
  - now right.
  - split; [exact Hbg|]. split; [exact Hstore|]. split; [exact Hpartner|].
    assert (Hin : In ("R::" ++ "iso" ++ "Sum::p1ppD")
                    (group (coherent_sums (filled background_fit))
                       "eJPmL" "Bkgd")
                  /\ (forall type key,
                         In ("R::" ++ "iso" ++ "Sum::p1ppD")
                           (group (coherent_sums (filled background_fit))
                              type key) ->
                         type = "eJPmL" /\ key = "Bkgd")
                  /\ (forall key pd_pair,
                         SMap.find key (phase_diffs (filled background_fit))
                         = Some pd_pair ->
                         fst pd_pair <> "R::" ++ "iso" ++ "Sum::p1ppD"
                         /\ snd pd_pair <> "R::" ++ "iso" ++ "Sum::p1ppD")).
    { apply Hrouted; [reflexivity | simpl; tauto]. }
    destruct Hin as (H1 & H2 & H3).
    split; [exact H1|]. split; [exact H2|]. split; [exact H3|].
    split; [exact Honly|]. apply Hgroup. reflexivity.
Defined.

(** The trailing segment of [R::isoSum::p1ppD] parses as any other, but the
    amplitude is filed as background. *)
Example marker_outside_segment :
  parse_amplitude "R::isoSum::p1ppD" = ok ("p", "1p", "p", "D")
  /\ is_background "R::isoSum::p1ppD" = true
  /\ (exists m',
         fill_maps background_fit init_maps = ok m'
         /\ group (coherent_sums m') "eJPmL" "Bkgd"
            = ["R::S::iso"; "R::isoSum::p1ppD"]
         /\ group (coherent_sums m') "eJPmL" "p1ppD" = []
         /\ phase_diffs m' = []).
Proof.
  repeat split. eexists. split; [reflexivity|]. repeat split.
Qed.

(** * Further properties of the script *)

(** ** What else [fill_maps] stores *)

Lemma store_amplitude_others {D} (results : FitResults D) reaction a
    (m m' : maps D) :
  store_amplitude results reaction a m = ok m' ->
  standard_results m' = standard_results m
  /\ production_coefficients m'
     = store_coefficient results (production_coefficients m) a.
Proof.
  unfold store_amplitude, store_coefficient.
  destruct (is_background a); [intros [= <-]; auto|].
  destruct (parse_amplitude a) as [ex|[[[e JP] mp] L]]; [discriminate|].
  rewrite rbind_ok. intros H.
  apply rbind_inv in H as (pd & _ & [= <-]). auto.
Qed.

Lemma fill_maps_others {D} (results : FitResults D) (m m' : maps D) :
  fill_maps results m = ok m' ->
  standard_results m' = store_standard_results results (standard_results m)
  /\ production_coefficients m'
     = fold_left (store_coefficient results) (all_amplitudes results)
         (production_coefficients m).
Proof.
  unfold fill_maps, all_amplitudes. intros Hrun.
  set (m0 := Build_maps D _ _ _ _) in Hrun.
  change (store_standard_results results (standard_results m))
    with (standard_results m0).
  change (production_coefficients m) with (production_coefficients m0).
  clearbody m0.
  pattern (reactionList results), m'.
  eapply for_each_invariant; [| |exact Hrun].
  - auto.
  - intros reactions reaction m1 m2 [Hs Hp] Hinner.
    rewrite flat_map_app. simpl. rewrite app_nil_r.
    pattern (ampList results reaction), m2.
    eapply for_each_invariant; [| |exact Hinner].
    + now rewrite app_nil_r.
    + intros amps a m3 m4 [Hs3 Hp3] Hstep.
      apply store_amplitude_others in Hstep as [Hs4 Hp4].
      rewrite Hs4, Hp4, Hs3, Hp3. split; auto.
      rewrite !fold_left_app. reflexivity.
Qed.

(** X1.  After [fill_maps] on cleared maps, [standard_results] holds the
    seven fields of the fit, in the order of their names, whatever
    amplitudes the fit has. *)
Theorem standard_results_fields {D} (results : FitResults D) (m m' : maps D) :
  fill_maps results (clear_maps m) = ok m' ->
  standard_results m' = standard_fields results.
Proof.
  intros Hrun. apply fill_maps_others in Hrun as [Hs _].
  rewrite Hs. reflexivity.
Qed.

Lemma standard_results_fields_witness :
  standard_results (filled scenario) = standard_fields scenario.
Proof.
  apply (standard_results_fields scenario init_maps (filled scenario)).
  reflexivity.
Defined.

Section Coefficients.
Context {D : Type}.
Variable results : FitResults D.

Lemma coefficients_sorted l (pc : SMap.t (D * D)) :
  SMap.sorted pc -> SMap.sorted (fold_left (store_coefficient results) l pc).
Proof.
  revert pc. induction l as [|a l IH]; intros pc Hs; simpl; auto.
  apply IH. unfold store_coefficient.
  destruct (is_background a); auto.
  destruct (parse_amplitude a) as [ex|[[[e JP] m] L]]; auto.
  now apply sorted_insert.
Qed.

Lemma coefficients_keys l (pc : SMap.t (D * D)) key :
  In key (SMap.keys (fold_left (store_coefficient results) l pc))
  <-> In key (SMap.keys pc)
      \/ exists a seg,
          In a l /\ is_background a = false /\ well_formed a = true
          /\ trailing a = ok seg /\ seg = key.
Proof.
  revert pc. induction l as [|a l IH]; intros pc; simpl.
  - split; auto. intros [H|(a & seg & [] & _)]; auto.
  - rewrite IH. unfold store_coefficient.
    destruct (is_background a) eqn:Hbg.
    + split.
      * intros [H|(b & seg & Hb & H)]; auto. right. exists b, seg. tauto.
      * intros [H|(b & seg & [<-|Hb] & Hbg' & H)]; auto; [congruence|].
        right. exists b, seg. tauto.
    + destruct (parse_amplitude a) as [ex|[[[e JP] m] L]] eqn:Hparse.
      * split.
        -- intros [H|(b & seg & Hb & H)]; auto. right. exists b, seg. tauto.
        -- intros [H|(b & seg & [<-|Hb] & Hbg' & Hwf & H)]; auto.
           ++ apply well_formed_parse in Hwf as (e & JP & m & L & Hp).
              unfold ok in Hp. congruence.
           ++ right. exists b, seg. tauto.
      * destruct (parse_amplitude_inv _ _ _ _ _ Hparse)
          as (sa & Hta & Hlen & _ & Hlabel).
        assert (Hwf : well_formed a = true).
        { unfold well_formed. unfold ok in Hta. rewrite Hta.
          now apply Nat.leb_le. }
        rewrite Hlabel, keys_insert. split.
        -- intros [[->|H]|(b & seg & Hb & H)]; auto.
           ++ right. exists a, sa. auto 7.
           ++ right. exists b, seg. tauto.
        -- intros [H|(b & seg & [<-|Hb] & Hbg' & Hwf' & Ht & <-)]; auto.
           ++ left. left. same_result.
           ++ right. exists b, seg. auto 7.
Qed.

Lemma coefficients_untouched l (pc : SMap.t (D * D)) seg :
  (forall b, In b l -> is_background b = false -> trailing b <> ok seg) ->
  SMap.find seg (fold_left (store_coefficient results) l pc) = SMap.find seg pc.
Proof.
  revert pc. induction l as [|b l IH]; intros pc Hnot; simpl; auto.
  rewrite IH by (intros c Hc; apply Hnot; now right).
  unfold store_coefficient.
  destruct (is_background b) eqn:Hbg; auto.
  destruct (parse_amplitude b) as [ex|[[[e JP] m] L]] eqn:Hparse; auto.
  destruct (parse_amplitude_inv _ _ _ _ _ Hparse) as (sb & Htb & _ & _ & Hlabel).
  rewrite Hlabel. apply find_insert_other.
  intros ->. now apply (Hnot b (or_introl eq_refl)).
Qed.

End Coefficients.

(** X2.  After [fill_maps], [production_coefficients] is in key order, has
    one entry for every trailing segment of an amplitude without the marker,
    and under a segment it holds the coefficient of the last amplitude with
    that segment: an earlier one under another reaction or sum is written
    over. *)
Theorem production_coefficients_last_wins {D} (results : FitResults D)
    (m' : maps D) :
  fill_maps results init_maps = ok m' ->
  SMap.sorted (production_coefficients m')
  /\ (forall key,
         In key (SMap.keys (production_coefficients m'))
         <-> exists a,
             In a (all_amplitudes results) /\ is_background a = false
             /\ trailing a = ok key)
  /\ (forall earlier a later seg,
         all_amplitudes results = (earlier ++ a :: later)%list ->
         is_background a = false -> trailing a = ok seg ->
         (forall b, In b later -> is_background b = false ->
                    trailing b <> ok seg) ->
         SMap.find seg (production_coefficients m')
         = Some (scaledProductionParameter results a)).
Proof.
  intros Hrun.
  destruct (fill_maps_others results init_maps m' Hrun) as [_ Hpc].
  cbn [production_coefficients init_maps] in Hpc. rewrite Hpc.
  split; [|split].
  - apply coefficients_sorted. constructor.
  - intros key. rewrite coefficients_keys. simpl. split.
    + intros [[]|(a & seg & Ha & Hbg & _ & Ht & <-)]. eauto.
    + intros (a & Ha & Hbg & Ht). right. exists a, key.
      repeat split; auto. eapply fill_maps_returned; eauto.
  - intros earlier a later seg Hall Hbg Ht Hlater.
    rewrite Hall, fold_left_app. simpl.
    rewrite coefficients_untouched by exact Hlater.
    assert (Hwf : well_formed a = true).
    { eapply fill_maps_returned; eauto. rewrite Hall.
      apply in_or_app. right. now left. }
    apply well_formed_parse in Hwf as (e & JP & m & L & Hparse).
    unfold store_coefficient. rewrite Hbg, Hparse.
    destruct (parse_amplitude_inv _ _ _ _ _ Hparse) as (sa & Hta & _ & _ & Hl).
    assert (sa = seg) as -> by same_result.
    unfold ok. rewrite Hl. apply find_insert_same.
Qed.

Lemma production_coefficients_last_wins_witness :
  SMap.find "p1p0S" (production_coefficients (filled two_sums_fit))
  = Some (scaledProductionParameter two_sums_fit "R::RealNegSign_::p1p0S").
Proof.
  destruct (production_coefficients_last_wins two_sums_fit (filled two_sums_fit))
    as (_ & _ & Hlast); [reflexivity|].
  apply (Hlast ["R::ImagPosSign::p1p0S"; "R::Bkgd"] "R::RealNegSign_::p1p0S" []).
  - reflexivity.
  - reflexivity.
  - reflexivity.
  - intros b [].
Defined.

(** X3.  After [fill_maps] a group holds exactly the amplitudes placed under
    its key, from all reactions, in the order of the amplitude lists and as
    often as they are listed: this is the list the intensity of the sum is
    asked for. *)
Theorem coherent_sum_group_contents {D} (results : FitResults D)
    (m' : maps D) (type key : string) :
  fill_maps results init_maps = ok m' ->
  group (coherent_sums m') type key
  = filter (fun a => placed a type key) (all_amplitudes results).
Proof.
  intros Hrun.
  destruct (fill_maps_sums results init_maps m' Hrun) as [Hg _].
  rewrite Hg. cbn [coherent_sums init_maps]. now rewrite group_init.
Qed.

Lemma coherent_sum_group_contents_witness :
  group (coherent_sums (filled two_reactions_fit)) "eJPmL" "p1p0S"
  = ["R1::S::p1p0S"; "R2::S::p1p0S"].
Proof.
  rewrite (coherent_sum_group_contents two_reactions_fit
             (filled two_reactions_fit) "eJPmL" "p1p0S"); reflexivity.
Defined.

(** X4.  [fill_maps] returns exactly when every amplitude without the
    marker has a trailing segment of four characters or more; otherwise it
    throws, whatever else the fit holds. *)
Theorem fill_maps_returns_exactly {D} (results : FitResults D) (m : maps D) :
  returns (fill_maps results m) = true
  <-> forall a, In a (all_amplitudes results) ->
                is_background a = false -> well_formed a = true.
Proof.
  split.
  - intros Hret a Hin Hbg.
    destruct (fill_maps results m) as [ex|m'] eqn:Hrun; [discriminate|].
    eapply fill_maps_returned; eauto.
  - intros Hwf. destruct (fill_maps_returns results m Hwf) as (m' & Hrun).
    unfold ok in Hrun. now rewrite Hrun.
Qed.

(** X5.  Clearing the maps a fit has filled gives the first maps again:
    the seven types are kept, each with no group, and the other maps are
    empty, so that the next file is filled as if it were the first. *)
Theorem cleared_maps_are_fresh {D} (results : FitResults D) (m' : maps D) :
  fill_maps results init_maps = ok m' ->
  clear_maps m' = init_maps
  /\ forall next : FitResults D,
      fill_maps next (clear_maps m') = fill_maps next init_maps.
Proof.
  intros Hrun.
  pose proof (clear_maps_filled results m' Hrun) as H.
  split; auto. intros next. now rewrite H.
Qed.

Lemma cleared_maps_are_fresh_witness :
  clear_maps (filled two_sums_fit) = init_maps
  /\ forall next : FitResults Z,
      fill_maps next (clear_maps (filled two_sums_fit))
      = fill_maps next init_maps.
Proof.
  apply (cleared_maps_are_fresh two_sums_fit (filled two_sums_fit)).
  reflexivity.
Defined.

(** ** What else the phase difference map holds *)

(** What one visit does to the entry under a key. *)
Lemma visit_step_find x p pd pd' key :
  visit_step (x, p) pd = ok pd' ->
  SMap.find key pd' = SMap.find key pd
  \/ (SMap.find key pd' = Some (x, p)
      /\ exists sx sp,
          trailing x = ok sx /\ trailing p = ok sp /\ p <> x
          /\ is_background p = false /\ key = pair_key sx sp
          /\ SMap.mem (pair_key sp sx) pd = false).
Proof.
  intros H. apply visit_step_inv in H as (sx & Hx & _ & H).
  apply store_phase_diff_cases in H
      as [->|(sp & Hne & Hbg & Hp & Hswap & _ & ->)]; auto.
  rewrite find_insert.
  destruct (String.eqb_spec key (pair_key sx sp)) as [->|_]; auto.
  right. split; auto. exists sx, sp. auto 7.
Qed.

(** X6.  Every entry of the phase difference map is a pair the inner loop
    met: two different amplitudes of one reaction, both without the marker,
    of equal reflectivity, filed under the key made of their two trailing
    segments. *)
Theorem phase_diff_entries {D} (results : FitResults D) (m' : maps D)
    (key X Y : string) :
  fill_maps results init_maps = ok m' ->
  SMap.find key (phase_diffs m') = Some (X, Y) ->
  In (X, Y) (visits results)
  /\ X <> Y /\ is_background X = false /\ is_background Y = false
  /\ exists sx sy,
      trailing X = ok sx /\ trailing Y = ok sy
      /\ key = pair_key sx sy /\ front sx = front sy.
Proof.
  intros Hrun Hfind.
  pose proof (visits_phase_ok results _ (fill_maps_visits _ _ _ Hrun)) as Hok.
  apply fill_maps_visits in Hrun. cbn [phase_diffs init_maps] in Hrun.
  assert (Hin : In (X, Y) (visits results)).
  { revert Hfind.
    apply (for_each_preserves visit_step
             (fun pd => SMap.find key pd = Some (X, Y) ->
                        In (X, Y) (visits results))
             (visits results) SMap.empty (phase_diffs m')); auto.
    - discriminate.
    - intros [x p] pd1 pd2 Hv Hinv Hstep Hf.
      destruct (visit_step_find x p pd1 pd2 key Hstep) as [E|[E _]].
      + apply Hinv. congruence.
      + assert ((X, Y) = (x, p)) as -> by congruence. exact Hv. }
  apply Hok in Hfind as (H1 & H2 & H3 & H4). cbn [fst snd] in *. auto.
Qed.

Lemma phase_diff_entries_witness :
  In ("R1::S::p1p0S", "R1::S::p1ppD") (visits scenario)
  /\ "R1::S::p1p0S" <> "R1::S::p1ppD"
  /\ is_background "R1::S::p1p0S" = false
  /\ is_background "R1::S::p1ppD" = false
  /\ exists sx sy,
      trailing "R1::S::p1p0S" = ok sx /\ trailing "R1::S::p1ppD" = ok sy
      /\ "p1p0S_p1ppD" = pair_key sx sy /\ front sx = front sy.
Proof.
  apply (phase_diff_entries scenario (filled scenario) "p1p0S_p1ppD");
    reflexivity.
Defined.

(** X7.  Under a key of two different segments the map holds the last pair
    with these segments that the inner loop met in this order: a pair from
    an earlier reaction or sum is written over.  (The segments hold no
    underscore, and the key in the other order is not in the map.) *)
Theorem phase_diff_last_pair {D} (results : FitResults D) (m' : maps D)
    (before after : list (string * string)) (X Y sa sb : string) :
  fill_maps results init_maps = ok m' ->
  visits results = (before ++ (X, Y) :: after)%list ->
  trailing X = ok sa -> trailing Y = ok sb -> Y <> X ->
  is_background Y = false -> front sa = front sb ->
  no_underscore sa = true -> no_underscore sb = true ->
  SMap.mem (pair_key sb sa) (phase_diffs m') = false ->
  (forall X' Y',
      In (X', Y') after ->
      ~ (trailing X' = ok sa /\ trailing Y' = ok sb /\ Y' <> X'
         /\ is_background Y' = false)) ->
  SMap.find (pair_key sa sb) (phase_diffs m') = Some (X, Y).
Proof.
  intros Hrun Hsplit HX HY Hne HbgY Hf Hsa Hsb Hswap Hlater.
  apply fill_maps_visits in Hrun. cbn [phase_diffs init_maps] in Hrun.
  rewrite Hsplit in Hrun.
  apply for_each_split in Hrun as (pd1 & pd2 & _ & Hstep & Hrest).
  assert (Hpd2 : SMap.find (pair_key sa sb) pd2 = Some (X, Y)).
  { apply visit_step_inv in Hstep as (sa' & Ha' & _ & Hstep).
    assert (sa' = sa) as -> by same_result.
    apply (store_phase_diff_registers _ _ _ sb) in Hstep
        as [[H1 ->]|[_ ->]]; auto.
    - apply (visits_grow after pd1 _ _ Hrest) in H1. congruence.
    - apply find_insert_same. }
  apply (for_each_preserves visit_step
           (fun pd => SMap.find (pair_key sa sb) pd = Some (X, Y))
           after pd2 (phase_diffs m')); auto.
  intros [x p] pda pdb Hin Hinv Hone.
  destruct (visit_step_find x p pda pdb (pair_key sa sb) Hone)
    as [E|[_ (sx & sp & Hx & Hp & Hxp & Hbg & Hkey & _)]]; [congruence|].
  exfalso. symmetry in Hkey. apply pair_key_inj in Hkey as [-> ->]; auto.
  apply (Hlater x p Hin). auto.
Qed.

Lemma phase_diff_last_pair_witness :
  SMap.find (pair_key "p1ppD" "p1p0S") (phase_diffs (filled two_reactions_fit))
  = None
  /\ SMap.find (pair_key "p1p0S" "p1ppD")
       (phase_diffs (filled two_reactions_fit))
     = Some ("R2::S::p1p0S", "R2::S::p1ppD").
Proof.
  split; [reflexivity|].
  apply (phase_diff_last_pair two_reactions_fit (filled two_reactions_fit)
           [("R1::S::p1p0S", "R1::S::p1p0S"); ("R1::S::p1p0S", "R1::S::p1ppD");
            ("R1::S::p1ppD", "R1::S::p1p0S"); ("R1::S::p1ppD", "R1::S::p1ppD");
            ("R2::S::p1ppD", "R2::S::p1ppD"); ("R2::S::p1ppD", "R2::S::p1p0S")]
           [("R2::S::p1p0S", "R2::S::p1p0S")]
           "R2::S::p1p0S" "R2::S::p1ppD" "p1p0S" "p1ppD"); try reflexivity.
  - discriminate.
  - intros X' Y' [E|[]] (_ & H & _). injection E as <- <-. discriminate H.
Defined.

(** X8.  Under the key of one segment with itself (two amplitudes that
    differ before the segment) the map keeps the first such pair the inner
    loop met: once the key is there, line 280 finds it and later pairs are
    passed over. *)
Theorem phase_diff_first_pair {D} (results : FitResults D) (m' : maps D)
    (before after : list (string * string)) (X Y s : string) :
  fill_maps results init_maps = ok m' ->
  visits results = (before ++ (X, Y) :: after)%list ->
  trailing X = ok s -> trailing Y = ok s -> Y <> X ->
  is_background Y = false -> no_underscore s = true ->
  (forall X' Y',
      In (X', Y') before ->
      ~ (trailing X' = ok s /\ trailing Y' = ok s /\ Y' <> X'
         /\ is_background Y' = false)) ->
  SMap.find (pair_key s s) (phase_diffs m') = Some (X, Y).
Proof.
  intros Hrun Hsplit HX HY Hne HbgY Hs Hearlier.
  apply fill_maps_visits in Hrun. cbn [phase_diffs init_maps] in Hrun.
  rewrite Hsplit in Hrun.
  apply for_each_split in Hrun as (pd1 & pd2 & Hbefore & Hstep & Hrest).
  assert (Hpd1 : SMap.find (pair_key s s) pd1 = None).
  { apply (for_each_preserves visit_step
             (fun pd => SMap.find (pair_key s s) pd = None)
             before SMap.empty pd1); auto.
    intros [x p] pda pdb Hin Hinv Hone.
    destruct (visit_step_find x p pda pdb (pair_key s s) Hone)
      as [E|[_ (sx & sp & Hx & Hp & Hxp & Hbg & Hkey & _)]]; [congruence|].
    exfalso. symmetry in Hkey. apply pair_key_inj in Hkey as [-> ->]; auto.
    apply (Hearlier x p Hin). auto. }
  assert (Hpd2 : SMap.find (pair_key s s) pd2 = Some (X, Y)).
  { apply visit_step_inv in Hstep as (s' & Hs' & _ & Hstep).
    assert (s' = s) as -> by same_result.
    apply (store_phase_diff_registers _ _ _ s) in Hstep
        as [[H1 _]|[_ ->]]; auto.
    - unfold SMap.mem in H1. rewrite Hpd1 in H1. discriminate.
    - apply find_insert_same. }
  apply (for_each_preserves visit_step
           (fun pd => SMap.find (pair_key s s) pd = Some (X, Y))
           after pd2 (phase_diffs m')); auto.
  intros [x p] pda pdb Hin Hinv Hone.
  destruct (visit_step_find x p pda pdb (pair_key s s) Hone)
    as [E|[_ (sx & sp & Hx & Hp & Hxp & Hbg & Hkey & Hmem)]]; [congruence|].
  exfalso. symmetry in Hkey. apply pair_key_inj in Hkey as [-> ->]; auto.
  unfold SMap.mem in Hmem. rewrite Hinv in Hmem. discriminate.
Qed.

Lemma phase_diff_first_pair_witness :
  SMap.find (pair_key "p1p0S" "p1p0S") (phase_diffs (filled two_sums_fit))
  = Some ("R::ImagPosSign::p1p0S", "R::RealNegSign_::p1p0S").
Proof.
  apply (phase_diff_first_pair two_sums_fit (filled two_sums_fit)
           [("R::ImagPosSign::p1p0S", "R::ImagPosSign::p1p0S");
            ("R::ImagPosSign::p1p0S", "R::Bkgd")]
           [("R::RealNegSign_::p1p0S", "R::ImagPosSign::p1p0S");
            ("R::RealNegSign_::p1p0S", "R::Bkgd");
            ("R::RealNegSign_::p1p0S", "R::RealNegSign_::p1p0S")]
           "R::ImagPosSign::p1p0S" "R::RealNegSign_::p1p0S" "p1p0S");
    try reflexivity.
  - discriminate.
  - intros X' Y' [E|[E|[]]]; injection E as <- <-.
    + intros (_ & _ & H & _). now apply H.
    + intros (_ & _ & _ & H). discriminate H.
Defined.

(** ** Names without a separator *)

(** X9.  On a name without the separator, line 301 does not fail: [rfind]
    gives [npos], adding 2 wraps around to 1, and the name without its first
    character is parsed as the trailing segment.  Only the empty name
    throws, at position 1. *)
Theorem trailing_of_unseparated_name (amplitude : string) :
  contains amplitude "::" = false ->
  trailing amplitude
  = match amplitude with
    | EmptyString => throw (std_out_of_range 1 0)
    | String _ rest => ok rest
    end.
Proof.
  intros H. apply contains_false in H.
  apply (rfind_none_iff "::" amplitude 0) in H.
  unfold trailing, rfind. rewrite H. cbn [position].
  change (size_t_add npos 2) with 1%Z.
  unfold substr_from, size.
  destruct amplitude as [|c rest]; [reflexivity|].
  cbn [String.length].
  destruct (Z.ltb_spec (Z.of_nat (S (String.length rest))) 1); [lia|].
  reflexivity.
Qed.

Lemma trailing_of_unseparated_name_witness :
  trailing "xp1p0S" = ok "p1p0S".
Proof. apply (trailing_of_unseparated_name "xp1p0S"). reflexivity. Defined.

(** ** The list of files *)

Lemma no_space_app (a b : string) :
  no_space (a ++ b)%string = (no_space a && no_space b)%bool.
Proof.
  induction a as [|c a IH]; simpl; auto.
  rewrite IH. apply andb_assoc.
Qed.

Lemma split_files_word (w s word : string) :
  no_space w = true ->
  split_files (w ++ s)%string word = split_files s (word ++ w)%string.
Proof.
  revert word. induction w as [|c w IH]; intros word H; simpl in *.
  - now rewrite append_nil_r.
  - apply andb_prop in H as [Hc Hw]. apply negb_true_iff in Hc.
    rewrite Hc, IH, append_assoc by assumption. reflexivity.
Qed.

Lemma split_join (words : list string) :
  Forall (fun w => plain_word w = true) words ->
  split_files (join_files words) "" = words.
Proof.
  induction 1 as [|w rest Hw _ IH]; [reflexivity|].
  apply andb_prop in Hw as [Hne Hw]. apply negb_true_iff in Hne.
  destruct rest as [|w' rest].
  - cbn [join_files]. rewrite <- (append_nil_r w) at 1.
    rewrite split_files_word by assumption. simpl. now rewrite Hne.
  - change (join_files (w :: w' :: rest))
      with (w ++ String " " (join_files (w' :: rest)))%string.
    rewrite split_files_word by assumption.
    change (split_files (String " " (join_files (w' :: rest))) ("" ++ w)%string)
      with (if String.eqb w "" then split_files (join_files (w' :: rest)) ""
            else w :: split_files (join_files (w' :: rest)) "").
    now rewrite Hne, IH.
Qed.

(** X10.  Every file name read from the list is a word: it is not empty and
    holds no white space, however the list is spaced. *)
Theorem split_files_gives_words (files : string) :
  Forall (fun w => plain_word w = true) (split_files files "").
Proof.
  enough (G : forall word,
             no_space word = true ->
             Forall (fun w => plain_word w = true) (split_files files word))
    by now apply G.
  induction files as [|c files IH]; intros word Hword; simpl.
  - destruct (String.eqb word "") eqn:E; constructor; auto.
    unfold plain_word. now rewrite E, Hword.
  - destruct (is_space c) eqn:Hc.
    + destruct (String.eqb word "") eqn:E; [now apply IH|].
      constructor; [|now apply IH].
      unfold plain_word. now rewrite E, Hword.
    + apply IH. rewrite no_space_app, Hword. simpl. now rewrite Hc.
Qed.

(** X11.  File names that are words, written with one blank between them,
    are read back as they were, in their order, and the script processes
    exactly them. *)
Theorem split_files_round_trip {D} (show : D -> string)
    (open_results : string -> FitResults D) (acc : bool)
    (words : list string) :
  Forall (fun w => plain_word w = true) words ->
  split_files (join_files words) "" = words
  /\ extract_fit_results show open_results acc (join_files words)
     = extract_files show open_results acc words [] init_maps.
Proof.
  intros H. apply split_join in H. split; auto.
  unfold extract_fit_results. now rewrite H.
Qed.

Lemma split_files_round_trip_witness :
  split_files (join_files ["bad.fit"; "good.fit"]) "" = ["bad.fit"; "good.fit"]
  /\ extract_fit_results show_Z sample_files true
       (join_files ["bad.fit"; "good.fit"])
     = extract_files show_Z sample_files true ["bad.fit"; "good.fit"]
         [] init_maps.
Proof.
  apply (split_files_round_trip show_Z sample_files true
           ["bad.fit"; "good.fit"]).
  repeat constructor.
Defined.

(** ** The fit parameters *)

Lemma flat_map_unless {A B} (skip : A -> bool) (f : A -> list B) l :
  flat_map (fun x => if skip x then [] else f x) l
  = flat_map f (filter (fun x => negb (skip x)) l).
Proof.
  induction l as [|x l IH]; simpl; auto.
  destruct (skip x); simpl; now rewrite IH.
Qed.

Lemma flat_map_single {A B} (f : A -> B) l :
  flat_map (fun x => [f x]) l = map f l.
Proof. induction l as [|x l IH]; simpl; congruence. Qed.

Lemma calls_write_header {D} (results : FitResults D) (m : maps D) :
  calls (write_header results m) = [Q_parNameList].
Proof.
  unfold write_header. rewrite !calls_app, !calls_for_range.
  rewrite (flat_map_none _ (standard_results m)) by reflexivity.
  rewrite (flat_map_none _ (production_coefficients m)) by reflexivity.
  rewrite (flat_map_none _ (phase_diffs m)) by reflexivity.
  rewrite (flat_map_none _ (parNameList results))
    by (intros n _; now destruct (contains n "::")).
  rewrite (flat_map_none _ (coherent_sums m)); [reflexivity|].
  intros sum_entry _. rewrite calls_for_range. now apply flat_map_none.
Qed.

(** X12.  A parameter whose name holds the separator is never asked for: a
    row asks the value and the error of the other parameters, once each and
    in the order of the parameter list, and the header asks for nothing but
    the list. *)
Theorem scoped_parameters_are_skipped {D} (show : D -> string)
    (results : FitResults D) (m : maps D) (acc : bool) :
  calls (write_header results m) = [Q_parNameList]
  /\ filter is_parValue_call (calls (write_values show results m acc))
     = map Q_parValue (unscoped (parNameList results))
  /\ filter is_parError_call (calls (write_values show results m acc))
     = map Q_parError (unscoped (parNameList results))
  /\ forall name,
      contains name "::" = true ->
      ~ In (Q_parValue name) (calls (write_values show results m acc))
      /\ ~ In (Q_parError name) (calls (write_values show results m acc)).
Proof.
  assert (Hv : filter is_parValue_call (calls (write_values show results m acc))
               = map Q_parValue (unscoped (parNameList results))).
  { rewrite calls_write_values. cbn [filter is_parValue_call].
    rewrite !filter_app, !filter_flat_map.
    rewrite (flat_map_none _ (sum_entries (coherent_sums m))) by reflexivity.
    rewrite (flat_map_none _ (phase_diffs m)) by reflexivity.
    rewrite !app_nil_r. unfold unscoped.
    rewrite <- flat_map_single, <- flat_map_unless.
    apply flat_map_ext. intros n. now destruct (contains n "::"). }
  assert (He : filter is_parError_call (calls (write_values show results m acc))
               = map Q_parError (unscoped (parNameList results))).
  { rewrite calls_write_values. cbn [filter is_parError_call].
    rewrite !filter_app, !filter_flat_map.
    rewrite (flat_map_none _ (sum_entries (coherent_sums m))) by reflexivity.
    rewrite (flat_map_none _ (phase_diffs m)) by reflexivity.
    rewrite !app_nil_r. unfold unscoped.
    rewrite <- flat_map_single, <- flat_map_unless.
    apply flat_map_ext. intros n. now destruct (contains n "::"). }
  split; [apply calls_write_header|]. split; [exact Hv|]. split; [exact He|].
  intros name Hname. split; intros Hin.
  - assert (H : In (Q_parValue name)
                  (filter is_parValue_call
                     (calls (write_values show results m acc))))
      by (apply filter_In; auto).
    rewrite Hv in H. apply in_map_iff in H as (n & [= ->] & H).
    apply filter_In in H as [_ H]. now rewrite Hname in H.
  - assert (H : In (Q_parError name)
                  (filter is_parError_call
                     (calls (write_values show results m acc))))
      by (apply filter_In; auto).
    rewrite He in H. apply in_map_iff in H as (n & [= ->] & H).
    apply filter_In in H as [_ H]. now rewrite Hname in H.
Qed.

(** ** The cells of the csv *)

Lemma cells_text_app (a b : list string) :
  cells_text (a ++ b)%list = (cells_text a ++ cells_text b)%string.
Proof.
  induction a as [|cell a IH]; simpl; auto.
  now rewrite IH, append_assoc.
Qed.

Lemma csv_cells {X Y} (l : list X) (body : X -> list event)
    (cols : X -> list Y) (cell : Y -> string) :
  (forall x, csv_text (body x) = cells_text (map cell (cols x))) ->
  csv_text (for_range l body) = cells_text (map cell (flat_map cols l)).
Proof.
  intros H. unfold for_range. induction l as [|x l IH]; simpl; auto.
  now rewrite csv_text_app, map_app, cells_text_app, H, IH.
Qed.

Lemma for_range_sum_entries (cs : sums_map)
    (body : string * string * list string -> list event) :
  for_range cs
    (fun sum_entry =>
       for_range (SMap.at_key SMap.empty (fst sum_entry) cs)
         (fun kv => body (fst sum_entry, fst kv, snd kv)))
  = for_range (sum_entries cs) body.
Proof.
  unfold for_range, sum_entries. rewrite flat_map_flat_map.
  apply flat_map_ext. intros sum_entry. now rewrite flat_map_map.
Qed.

Ltac cells := intros; simpl; rewrite ?append_assoc; reflexivity.

Lemma header_cells {D} (results : FitResults D) (m : maps D) (acc : bool) :
  csv_text (write_header results m)
  = (cells_text (map fst (columns results m acc)) ++ newline)%string.
Proof.
  unfold write_header, columns.
  pose proof (for_range_sum_entries (coherent_sums m)
                (fun entry => [Csv (snd (fst entry)); Csv ",";
                               Csv (snd (fst entry)); Csv "_err,"])) as Hs.
  cbn [fst snd] in Hs. rewrite Hs. clear Hs.
  rewrite <- (flat_map_single (fun kv : string * D => (fst kv, snd kv))).
  unfold unscoped.
  rewrite <- (flat_map_unless (fun par_name => contains par_name "::")).
  rewrite !csv_text_app, !map_app, !cells_text_app, !append_assoc.
  apply (f_equal2 append); [apply csv_cells; cells|].
  change (csv_text [Call Q_parNameList]) with "".
  cbn [append].
  apply (f_equal2 append);
    [apply csv_cells; intros n; destruct (contains n "::"); cells|].
  apply (f_equal2 append); [apply csv_cells; cells|].
  apply (f_equal2 append); [apply csv_cells; cells|].
  apply (f_equal2 append); [apply csv_cells; cells|].
  reflexivity.
Qed.

Lemma row_cells {D} (show : D -> string) (results : FitResults D)
    (m : maps D) (acc : bool) :
  csv_text (write_values show results m acc)
  = cells_text (map (fun column => show (snd column)) (columns results m acc)).
Proof.
  unfold write_values, columns.
  pose proof (for_range_sum_entries (coherent_sums m)
                (fun entry =>
                   [Call (Q_intensity (snd entry) acc);
                    Csv (show (fst (intensity results (snd entry) acc)));
                    Csv ",";
                    Call (Q_intensity (snd entry) acc);
                    Csv (show (snd (intensity results (snd entry) acc)));
                    Csv ","])) as Hs.
  cbn [fst snd] in Hs. rewrite Hs. clear Hs.
  rewrite <- (flat_map_single (fun kv : string * D => (fst kv, snd kv))).
  unfold unscoped.
  rewrite <- (flat_map_unless (fun par_name => contains par_name "::")).
  rewrite !csv_text_app, !map_app, !cells_text_app.
  apply (f_equal2 append); [apply csv_cells; cells|].
  change (csv_text [Call Q_parNameList]) with "".
  cbn [append].
  apply (f_equal2 append);
    [apply csv_cells; intros n; destruct (contains n "::"); cells|].
  apply (f_equal2 append); [apply csv_cells; cells|].
  apply (f_equal2 append); apply csv_cells; cells.
Qed.

(** X13.  The header and a row are made of the same columns: the header
    writes the name of each column and a row writes its number, every cell
    followed by a comma; the header ends with a line break and the row with
    none.  The columns are the standard results, value and error of each
    parameter without the separator, real and imaginary part of each
    production coefficient, value and error of each coherent sum, value and
    error of each phase difference. *)
Theorem header_and_row_cells {D} (show : D -> string)
    (results : FitResults D) (m : maps D) (acc : bool) :
  csv_text (write_header results m)
  = (cells_text (map fst (columns results m acc)) ++ newline)%string
  /\ csv_text (write_values show results m acc)
     = cells_text
         (map (fun column => show (snd column)) (columns results m acc)).
Proof. split; [apply header_cells | apply row_cells]. Qed.

(** ** The whole run *)

Lemma rows_cells {D} (show : D -> string)
    (open_results : string -> FitResults D) (acc : bool) (files : list string) :
  rows_text show open_results acc files
  = cells_text
      (flat_map
         (fun file =>
            map (fun column => show (snd column))
              (columns (open_results file) (filled (open_results file)) acc))
         files).
Proof.
  induction files as [|file rest IH]; simpl; auto.
  rewrite cells_text_app, IH. unfold row_text. now rewrite row_cells.
Qed.

(** X14.  The csv of a run, from the list of files as it is given: the
    names of the columns of the first file that was processed to the end,
    one line break, and then the cells of all rows one after the other.  No
    line break is written between two rows, and a later file with other
    columns gets no header of its own. *)
Theorem csv_of_a_run {D} (show : D -> string)
    (open_results : string -> FitResults D) (acc : bool) (files : string) :
  csv_text (fst (extract_fit_results show open_results acc files))
  = match completed open_results (split_files files "") with
    | [] => ""%string
    | (first :: _) as done =>
        (cells_text
           (map fst
              (columns (open_results first)
                 (filled (open_results first)) acc))
         ++ newline
         ++ cells_text
              (flat_map
                 (fun file =>
                    map (fun column => show (snd column))
                      (columns (open_results file)
                         (filled (open_results file)) acc))
                 done))%string
    end.
Proof.
  unfold extract_fit_results.
  destruct (extract_files_csv show open_results acc (split_files files "")
              [] init_maps eq_refl) as [H _].
  cbn [csv_text fold_right String.eqb append] in H. rewrite H.
  unfold expected_csv.
  destruct (completed open_results (split_files files "")) as [|first others];
    [reflexivity|].
  unfold header_text. rewrite (header_cells _ _ acc), append_assoc.
  now rewrite rows_cells.
Qed.

Lemma extract_files_throw {D} (show : D -> string)
    (open_results : string -> FitResults D) (acc : bool)
    (before : list string) (file : string) (after : list string) (e : exn)
    (evs : list event) (m : maps D) :
  (forall f, In f before -> valid (open_results f) = true ->
             returns (fill_maps (open_results f) init_maps) = true) ->
  valid (open_results file) = true ->
  fill_maps (open_results file) init_maps = throw e ->
  clear_maps m = init_maps ->
  extract_files show open_results acc (before ++ file :: after)%list evs m
  = ((fst (extract_files show open_results acc before evs m)
      ++ [Cout ("Analyzing File: " ++ file ++ newline)%string])
     ++ [Call Q_valid], Some e)%list.
Proof.
  intros Hbefore Hvalid Hthrow. revert evs m.
  induction before as [|f before IH]; intros evs m Hclear.
  - cbn [app extract_files fst]. now rewrite Hvalid, Hclear, Hthrow.
  - cbn [app extract_files].
    destruct (valid (open_results f)) eqn:Hf; cbn [negb].
    + rewrite Hclear.
      pose proof (Hbefore f (or_introl eq_refl) Hf) as Hret.
      destruct (fill_maps (open_results f) init_maps) as [ex|m1] eqn:Hrun;
        [discriminate|].
      apply IH.
      * intros g Hg. apply Hbefore. now right.
      * now apply (clear_maps_filled (open_results f)).
    + apply IH; auto. intros g Hg. apply Hbefore. now right.
Qed.

(** X15.  An exception out of [fill_maps] ends the run at that file: the
    run returns with the exception after the two events of opening the file,
    the rows written before stay in the csv, and no later file is opened,
    whatever it holds. *)
Theorem exception_ends_the_run {D} (show : D -> string)
    (open_results : string -> FitResults D) (acc : bool)
    (before : list string) (file : string) (after : list string) (e : exn) :
  (forall f, In f before -> valid (open_results f) = true ->
             returns (fill_maps (open_results f) init_maps) = true) ->
  valid (open_results file) = true ->
  fill_maps (open_results file) init_maps = throw e ->
  extract_files show open_results acc (before ++ file :: after)%list
    [] init_maps
  = ((fst (extract_files show open_results acc before [] init_maps)
      ++ [Cout ("Analyzing File: " ++ file ++ newline)%string])
     ++ [Call Q_valid], Some e)%list
  /\ csv_text (fst (extract_files show open_results acc
                      (before ++ file :: after)%list [] init_maps))
     = csv_text (fst (extract_files show open_results acc before
                        [] init_maps)).
Proof.
  intros Hbefore Hvalid Hthrow.
  rewrite (extract_files_throw show open_results acc before file after e
             [] init_maps Hbefore Hvalid Hthrow eq_refl).
  split; [reflexivity|].
  cbn [fst]. rewrite !csv_text_app. cbn [csv_text fold_right csv_of append].
  now rewrite !append_nil_r.
Qed.

Lemma exception_ends_the_run_witness :
  extract_files show_Z short_files true
    (["good.fit"; "bad.fit"] ++ "short.fit" :: ["good.fit"])%list
    [] init_maps
  = ((fst (extract_files show_Z short_files true ["good.fit"; "bad.fit"]
             [] init_maps)
      ++ [Cout ("Analyzing File: " ++ "short.fit" ++ newline)%string])
     ++ [Call Q_valid], Some (std_out_of_range 3 2))%list.
Proof.
  apply (exception_ends_the_run show_Z short_files true
           ["good.fit"; "bad.fit"] "short.fit" ["good.fit"]
           (std_out_of_range 3 2)).
  - intros f [<-|[<-|[]]]; [reflexivity | discriminate].
  - reflexivity.
  - reflexivity.
Defined.

(** ** Coefficients and single amplitudes *)

Lemma sorted_filter (keep : string -> bool) (l : list string) :
  StronglySorted String_as_OT.lt l ->
  StronglySorted String_as_OT.lt (filter keep l).
Proof.
  induction 1 as [|k l Hs IH Hall]; simpl; [constructor|].
  destruct (keep k); auto. constructor; auto.
  rewrite Forall_forall in *. intros x Hx. apply Hall.
  now apply filter_In in Hx.
Qed.

(** X16.  The production coefficients have the keys of the single amplitude
    sums, in the same order, but for the reserved one: every single
    amplitude column of the csv except [Bkgd] comes with a coefficient
    column pair of the same name. *)
Theorem coefficients_match_single_amplitudes {D} (results : FitResults D)
    (m' : maps D) :
  fill_maps results init_maps = ok m' ->
  SMap.keys (production_coefficients m')
  = filter (fun key => negb (String.eqb key "Bkgd"))
      (SMap.keys (SMap.at_key SMap.empty "eJPmL" (coherent_sums m'))).
Proof.
  intros Hrun.
  destruct (fill_maps_others results init_maps m' Hrun) as [_ Hpc].
  cbn [production_coefficients init_maps] in Hpc.
  destruct (fill_maps_sums results init_maps m' Hrun) as [_ Hok].
  destruct (Hok init_coherent_sums_ok) as [_ Hsorted].
  apply sorted_keys_unique.
  - rewrite Hpc. apply coefficients_sorted. constructor.
  - apply sorted_filter, Hsorted.
  - intros key. rewrite filter_In, (fill_maps_keys results init_maps m') by auto.
    rewrite Hpc, coefficients_keys. simpl. split.
    + intros [[]|(a & seg & Ha & Hbg & Hwf & Ht & <-)]. split.
      * left. exists a. split; auto.
        apply well_formed_parse in Hwf as (e & JP & m & L & Hparse).
        apply (placed_parsed a e JP m L); auto.
        destruct (parse_amplitude_inv _ _ _ _ _ Hparse)
          as (sa & Hta & _ & _ & Hl).
        assert (sa = seg) as -> by same_result.
        rewrite <- Hl. reflexivity.
      * apply negb_true_iff, String.eqb_neq.
        now apply (label_not_reserved a).
    + intros [[(a & Ha & Hplaced)|[]] Hkey].
      apply negb_true_iff, String.eqb_neq in Hkey.
      destruct (is_background a) eqn:Hbg.
      * now apply placed_background in Hplaced as [_ ->].
      * right.
        assert (Hwf : well_formed a = true)
          by (eapply fill_maps_returned; eauto).
        destruct (well_formed_parse a Hwf) as (e & JP & m & L & Hparse).
        apply (placed_parsed a e JP m L) in Hplaced; auto.
        change (Some (eJPmL_of e JP m L) = Some key) in Hplaced.
        injection Hplaced as Hl.
        destruct (parse_amplitude_inv _ _ _ _ _ Hparse)
          as (sa & Hta & _ & _ & Hl').
        exists a, sa. repeat split; auto. congruence.
Qed.

Lemma coefficients_match_single_amplitudes_witness :
  SMap.keys (production_coefficients (filled two_sums_fit))
  = filter (fun key => negb (String.eqb key "Bkgd"))
      (SMap.keys (SMap.at_key SMap.empty "eJPmL"
                    (coherent_sums (filled two_sums_fit)))).
Proof.
  apply (coefficients_match_single_amplitudes two_sums_fit
           (filled two_sums_fit)).
  reflexivity.
Defined.
